(** * ConductorAI: largest number in a paged document

    A shallow embedding of [main.py]: the numeric literal extractor
    ([extract_all_numbers]), the scale resolver ([extract_scale_factor]), the
    table boundary detector ([detect_table_boundaries]), the contextual
    extractor ([extract_numbers_with_context]), the page loop of
    [process_pdf], the top-10 selection of [display_results] and the two
    selectors ([find_largest_number], [find_largest_nlp_number]).

    Modelling choices.
    - A Python [str] is a [list ascii]; a character is read as the code point
      of the same number (U+0000 to U+00FF), and [\d], [\s], [\w] and
      [str.lower] are the ones Python applies to those code points.
      On these code points [str.lower] gives one character for one
      character; the positions of the records are offsets in the lowered
      text, and are stated as such.
    - A Python [float] is a binary64 primitive float.
    - The two regular expressions of the program are terms of a small regex
      syntax run by a backtracking matcher with greedy quantifiers, ordered
      alternation and capture groups, as the [re] module runs them.
    - A call that may raise returns a [result]; the [dict] of per-page records
      is an association list in insertion order. *)

From Stdlib Require Import List Bool Arith ZArith Lia Ascii String.
From Stdlib Require Import Floats Permutation Sorted.
Import ListNotations.

Set Implicit Arguments.

(* ================================================================== *)
(** * Text *)

Module Text.

Definition text := list ascii.

Definition code (c : ascii) : nat := nat_of_ascii c.

Definition between (lo hi : nat) (c : ascii) : bool :=
  (lo <=? code c) && (code c <=? hi).

Definition is_char (n : nat) (c : ascii) : bool := code c =? n.

(** [\d]: a decimal digit. *)
Definition is_digit (c : ascii) : bool := between 48 57 c.

(** [\s]: white space, [str.isspace] on one character. *)
Definition is_space (c : ascii) : bool :=
  between 9 13 c || between 28 32 c || is_char 133 c || is_char 160 c.

(** Letters, [str.isalpha] on one character. *)
Definition is_alpha (c : ascii) : bool :=
  between 65 90 c || between 97 122 c
  || is_char 170 c || is_char 181 c || is_char 186 c
  || between 192 214 c || between 216 246 c || between 248 255 c.

(** [\w]: letters, digits and numeric characters, and the underscore. *)
Definition is_word (c : ascii) : bool :=
  is_alpha c || is_digit c || is_char 95 c
  || is_char 178 c || is_char 179 c || is_char 185 c || between 188 190 c.

(** [str.lower] on one character. *)
Definition lower_char (c : ascii) : ascii :=
  if between 65 90 c || between 192 214 c || between 216 222 c
  then ascii_of_nat (code c + 32)
  else c.

(** [text.lower()]; a character of the range modelled lowers to one
    character. *)
Definition lower (t : text) : text := map lower_char t.

Definition of_string (s : string) : text := list_ascii_of_string s.

Definition newline : ascii := ascii_of_nat 10.

Definition eqb (a b : text) : bool :=
  if list_eq_dec ascii_dec a b then true else false.

(** [t.startswith(p)] *)
Fixpoint starts_with (p t : text) : bool :=
  match p, t with
  | [], _ => true
  | _ :: _, [] => false
  | a :: p', b :: t' => Ascii.eqb a b && starts_with p' t'
  end.

(** [needle in hay] on strings. *)
Fixpoint contains (needle hay : text) : bool :=
  starts_with needle hay
  || match hay with
     | [] => false
     | _ :: hay' => contains needle hay'
     end.

(** [t[a:b]] for indices that are not negative. *)
Definition slice (t : text) (a b : nat) : text := firstn (b - a) (skipn a t).

(** [t.replace(',', '')] *)
Definition remove_commas (t : text) : text :=
  filter (fun c => negb (is_char 44 c)) t.

(** [t.endswith('s')] and [t[:-1]] *)
Definition ends_with_s (t : text) : bool :=
  match rev t with
  | c :: _ => is_char 115 c
  | [] => false
  end.

Definition drop_last (t : text) : text := removelast t.

End Text.

Import Text.

(* ================================================================== *)
(** * Outcomes of calls that may raise *)

Inductive exn := ValueError | StopIteration.

Inductive result (A : Type) :=
| Ok (a : A)
| Raise (e : exn).

Arguments Ok {A} a.
Arguments Raise {A} e.

(* ================================================================== *)
(** * Floats *)

Module PyFloat.

Local Open Scope Z_scope.

(** The decimal literal [d1 d2 ... dn] as an integer, most significant
    digit first. *)
Definition digit_value (c : ascii) : Z := Z.of_nat (code c) - 48.

Definition digits_value (ds : text) : Z :=
  fold_left (fun acc c => 10 * acc + digit_value c) ds 0.

(** The binary64 number nearest to [n / 10^k] (ties to even), through
    the division of the IEEE 754 specification: [float] rounds a decimal
    literal once. *)
Definition pow10 (k : nat) : positive := Nat.iter k (Pos.mul 10) 1%positive.

Definition of_decimal (neg : bool) (n : Z) (k : nat) : float :=
  match n with
  | Zpos p =>
      SF2Prim (SFdiv prec emax (S754_finite neg p 0)
                     (S754_finite false (pow10 k) 0))
  | _ => if neg then neg_zero else zero
  end.

(** Splits off the longest prefix of decimal digits. *)
Fixpoint span_digits (t : text) : text * text :=
  match t with
  | c :: t' =>
      if is_digit c
      then let (ds, rest) := span_digits t' in (c :: ds, rest)
      else ([], t)
  | [] => ([], [])
  end.

Definition split_sign (t : text) : bool * text :=
  match t with
  | c :: t' =>
      if is_char 45 c then (true, t')
      else if is_char 43 c then (false, t')
      else (false, t)
  | [] => (false, [])
  end.

(** [float(t)] on a plain decimal literal: an optional sign, digits and
    an optional fraction, with a digit on one side of the point at least.
    [None] stands for [ValueError]. (Python also reads exponents, [inf],
    [nan], underscores and surrounding white space; no string the
    extractors convert has the characters those need.) *)
Definition py_float (t : text) : option float :=
  let (neg, body) := split_sign t in
  let (ip, rest) := span_digits body in
  match rest with
  | [] =>
      match ip with
      | [] => None
      | _ => Some (of_decimal neg (digits_value ip) 0)
      end
  | c :: rest' =>
      if is_char 46 c then
        let (fp, rest'') := span_digits rest' in
        match rest'', (ip ++ fp)%list with
        | [], _ :: _ =>
            Some (of_decimal neg (digits_value (ip ++ fp)) (List.length fp))
        | _, _ => None
        end
      else None
  end.

End PyFloat.

Import PyFloat.

(* ================================================================== *)
(** * Regular expressions, as [re] runs them *)

Module Re.

Inductive regex :=
| Eps
| Chr (p : ascii -> bool)
| Seq (r1 r2 : regex)
| Alt (r1 r2 : regex)
| Star (r : regex)
| Group (n : nat) (r : regex).

(** [r?], [r+] and [r{n}], [r{lo,lo+more}]: all greedy. *)
Definition Opt (r : regex) : regex := Alt r Eps.
Definition Plus (r : regex) : regex := Seq r (Star r).

Fixpoint Times (n : nat) (r : regex) : regex :=
  match n with
  | O => Eps
  | S n' => Seq r (Times n' r)
  end.

Fixpoint UpTo (n : nat) (r : regex) : regex :=
  match n with
  | O => Eps
  | S n' => Opt (Seq r (UpTo n' r))
  end.

Definition Repeat (lo more : nat) (r : regex) : regex :=
  Seq (Times lo r) (UpTo more r).

Fixpoint Lit (t : text) : regex :=
  match t with
  | [] => Eps
  | c :: t' => Seq (Chr (Ascii.eqb c)) (Lit t')
  end.

(** Captures: the text of each group that took part in the match, the
    latest first. *)
Definition captures := list (nat * text).

Fixpoint group (n : nat) (c : captures) : option text :=
  match c with
  | [] => None
  | (m, t) :: c' => if m =? n then Some t else group n c'
  end.

(** The rounds of a star whose body is run by [body]: one more round is
    tried before the star stops, and a round has to consume a character,
    so [n] rounds suffice on a subject of [n] characters
    ([rounds_enough]). *)
Fixpoint rounds (A : Type)
         (body : text -> captures -> (text -> captures -> option A) -> option A)
         (k : text -> captures -> option A)
         (n : nat) (s : text) (c : captures) {struct n} : option A :=
  match n with
  | O => k s c
  | S n' =>
      match body s c
              (fun s' c' =>
                 if List.length s' <? List.length s
                 then rounds body k n' s' c' else None) with
      | Some x => Some x
      | None => k s c
      end
  end.

(** Backtracking matcher in continuation-passing style: [k] is what
    remains to be matched after [r]. An alternation tries its left branch
    first; a group records the text it matched. *)
Fixpoint run (A : Type) (r : regex) (s : text) (c : captures)
         (k : text -> captures -> option A) {struct r} : option A :=
  match r with
  | Eps => k s c
  | Chr p =>
      match s with
      | a :: s' => if p a then k s' c else None
      | [] => None
      end
  | Seq r1 r2 => run r1 s c (fun s' c' => run r2 s' c' k)
  | Alt r1 r2 =>
      match run r1 s c k with
      | Some x => Some x
      | None => run r2 s c k
      end
  | Star r1 => rounds (run r1) k (List.length s) s c
  | Group n r1 =>
      run r1 s c
        (fun s' c' =>
           k s' ((n, firstn (List.length s - List.length s') s) :: c'))
  end.

(** [pattern.match] at the head of [s]: the length matched and the
    captures. *)
Definition match_here (r : regex) (s : text) : option (nat * captures) :=
  run r s [] (fun s' c => Some (List.length s - List.length s', c)).

Record re_match := {
  m_start : nat;
  m_text : text;
  m_groups : captures
}.

(** [re.finditer]: the matches from left to right, none overlapping the
    one before; [skip] counts the characters of the last match still to
    pass. *)
Fixpoint finditer_from (r : regex) (s : text) (pos skip : nat) : list re_match :=
  match s with
  | [] =>
      match skip, match_here r [] with
      | O, Some (_, c) => [ {| m_start := pos; m_text := []; m_groups := c |} ]
      | _, _ => []
      end
  | _ :: s' =>
      match skip with
      | S skip' => finditer_from r s' (S pos) skip'
      | O =>
          match match_here r s with
          | Some (len, c) =>
              {| m_start := pos; m_text := firstn len s; m_groups := c |}
                :: finditer_from r s' (S pos) (pred len)
          | None => finditer_from r s' (S pos) 0
          end
      end
  end.

Definition finditer (r : regex) (s : text) : list re_match :=
  finditer_from r s 0 0.

(** [re.findall] for a pattern without capture groups. *)
Definition findall (r : regex) (s : text) : list text :=
  map m_text (finditer r s).

End Re.

Import Re.

(* ================================================================== *)
(** * The program *)

Definition digit : regex := Chr is_digit.
Definition space : regex := Chr is_space.
Definition word_char : regex := Chr is_word.
Definition one_of (t : text) : regex := Chr (fun c => existsb (Ascii.eqb c) t).

(** [[-+]?\d{1,3}(?:,\d{3})*(?:\.\d+)?|\d+(?:\.\d+)?] *)
Definition fraction : regex := Opt (Seq (Lit (of_string ".")) (Plus digit)).

Definition number_pattern : regex :=
  Alt (Seq (Opt (one_of (of_string "-+")))
        (Seq (Repeat 1 2 digit)
          (Seq (Star (Seq (Lit (of_string ",")) (Times 3 digit)))
               fraction)))
      (Seq (Plus digit) fraction).

(** [(number)\s*(\w+)?] *)
Definition context_pattern : regex :=
  Seq (Group 1 number_pattern)
    (Seq (Star space) (Opt (Group 2 (Plus word_char)))).

(** [\n\s*(?:FY\s*\d{4}|Fiscal Year)\s*] *)
Definition boundary_pattern : regex :=
  Seq (Lit [newline])
    (Seq (Star space)
      (Seq (Alt (Seq (Lit (of_string "FY")) (Seq (Star space) (Times 4 digit)))
                (Lit (of_string "Fiscal Year")))
           (Star space))).

(** [float(num.replace(',', ''))] for each [num]; the comprehension raises
    as soon as one conversion does. *)
Fixpoint convert_all (nums : list text) : result (list float) :=
  match nums with
  | [] => Ok []
  | num :: rest =>
      match py_float (remove_commas num) with
      | None => Raise ValueError
      | Some v =>
          match convert_all rest with
          | Ok vs => Ok (v :: vs)
          | Raise e => Raise e
          end
      end
  end.

Definition extract_all_numbers (t : text) : result (list float) :=
  convert_all (findall number_pattern t).

(** The table of [extract_scale_factor], in the order it is written. *)
Definition scale_factors : list (text * float) :=
  [ (of_string "thousand", 1e3%float);
    (of_string "million", 1e6%float);
    (of_string "billion", 1e9%float);
    (of_string "trillion", 1e12%float) ].

(** The two cues of a keyword: [in <word>] and [($<first letter>)]. *)
Definition phrase_cue (word : text) : text := (of_string "in " ++ word)%list.
Definition abbrev_cue (word : text) : text :=
  (of_string "($" ++ firstn 1 word ++ of_string ")")%list.

Definition cue_in (word : text) (t : text) : bool :=
  contains (phrase_cue word) (lower t) || contains (abbrev_cue word) (lower t).

Fixpoint first_factor (table : list (text * float)) (t : text) : float :=
  match table with
  | [] => 1%float
  | (word, factor) :: table' =>
      if cue_in word t then factor else first_factor table' t
  end.

(** Returns [1] when no keyword matches; the callers pass the result to
    [float] before they use it, so it is [1.0] here. *)
Definition extract_scale_factor (t : text) : float :=
  first_factor scale_factors t.

Definition detect_table_boundaries (t : text) : list nat :=
  map m_start (finditer boundary_pattern t).

(** One tuple [(original, scaled, scale_word, position)]. *)
Record number_record := {
  original : float;
  scaled : float;
  scale_word : text;
  position : nat
}.

Definition keywords : list text :=
  [ of_string "thousand"; of_string "million";
    of_string "billion"; of_string "trillion" ].

(** [w in keywords] *)
Definition is_keyword (w : text) : bool := existsb (Text.eqb w) keywords.

(** The local variables of the loop of [extract_numbers_with_context]. *)
Record scan_state := {
  numbers : list number_record;
  table_boundaries : list nat;
  current_scale : float;
  last_boundary : nat
}.

Definition initial_state (t : text) : scan_state :=
  {| numbers := [];
     table_boundaries := detect_table_boundaries t;
     current_scale := 1%float;
     last_boundary := 0 |}.

(** [if table_boundaries and position > table_boundaries[0]]: the scale
    is taken from the text since the last boundary, and the first pending
    boundary is popped. *)
Definition update_scale (t : text) (pos : nat) (st : scan_state) : scan_state :=
  match table_boundaries st with
  | b :: pending =>
      if b <? pos
      then {| numbers := numbers st;
              table_boundaries := pending;
              current_scale := extract_scale_factor (slice t (last_boundary st) pos);
              last_boundary := b |}
      else st
  | [] => st
  end.

(** The additional scaling by the trailing word: when the word is a
    keyword, or a keyword followed by [s], the resolver is run on the
    keyword itself and its result multiplies the number. *)
Definition apply_scale_word (w : option text) (x : float) : float :=
  match w with
  | None => x
  | Some word =>
      if is_keyword word then (x * extract_scale_factor word)%float
      else if negb (Text.eqb word []) && ends_with_s word
                && is_keyword (drop_last word)
           then (x * extract_scale_factor (drop_last word))%float
      else x
  end.

(** [scale_word or 'N/A'] *)
Definition word_or_na (w : option text) : text :=
  match w with
  | Some (c :: word) => c :: word
  | _ => of_string "N/A"
  end.

(** One round of the loop over the matches. Group 1 is not optional in
    the pattern, so every match has it ([context_match_group1]); a
    conversion that fails skips the match. *)
Definition scan_step (t : text) (st : scan_state) (m : re_match) : scan_state :=
  match group 1 (m_groups m) with
  | None => st
  | Some num =>
      match py_float (remove_commas num) with
      | None => st
      | Some original_number =>
          let scale_word := group 2 (m_groups m) in
          let pos := m_start m in
          let st' := update_scale t pos st in
          let scaled_number :=
            apply_scale_word scale_word (original_number * current_scale st')%float in
          {| numbers :=
               numbers st' ++
                 [ {| original := original_number;
                      scaled := scaled_number;
                      scale_word := word_or_na scale_word;
                      position := pos |} ];
             table_boundaries := table_boundaries st';
             current_scale := current_scale st';
             last_boundary := last_boundary st' |}
      end
  end.

Definition context_matches (t : text) : list re_match :=
  finditer context_pattern (lower t).

Definition scan (t : text) (ms : list re_match) : scan_state :=
  fold_left (scan_step t) ms (initial_state t).

Definition extract_numbers_with_context (t : text) : list number_record :=
  numbers (scan t (context_matches t)).

(** ** The page loop *)

(** A [dict] in insertion order: assignment replaces the value of a key
    that is present and adds the key at the end otherwise. *)
Definition dict (V : Type) := list (nat * V).

Fixpoint dict_set (V : Type) (d : dict V) (key : nat) (v : V) : dict V :=
  match d with
  | [] => [(key, v)]
  | (k, w) :: d' =>
      if k =? key then (k, v) :: d' else (k, w) :: dict_set d' key v
  end.

Fixpoint dict_get (V : Type) (d : dict V) (key : nat) : option V :=
  match d with
  | [] => None
  | (k, w) :: d' => if k =? key then Some w else dict_get d' key
  end.

Definition nlp_dict := dict (list number_record).

(** The body of the loop of [process_pdf] on the text of one page. *)
Definition process_page (page_num : nat) (t : text)
           (acc : list (float * nat) * nlp_dict)
  : result (list (float * nat) * nlp_dict) :=
  let (all_numbers, nlp_results) := acc in
  match extract_all_numbers t with
  | Raise e => Raise e
  | Ok nums =>
      let all_numbers' := (all_numbers ++ map (fun num => (num, page_num)) nums)%list in
      let nlp_numbers := extract_numbers_with_context t in
      match nlp_numbers with
      | [] => Ok (all_numbers', nlp_results)
      | _ :: _ => Ok (all_numbers', dict_set nlp_results page_num nlp_numbers)
      end
  end.

(** [for page_num, page in enumerate(reader.pages, 1)], on the texts the
    reader extracts from the pages. *)
Fixpoint process_pages (pages : list text) (page_num : nat)
         (acc : list (float * nat) * nlp_dict)
  : result (list (float * nat) * nlp_dict) :=
  match pages with
  | [] => Ok acc
  | t :: pages' =>
      match process_page page_num t acc with
      | Raise e => Raise e
      | Ok acc' => process_pages pages' (S page_num) acc'
      end
  end.

Definition process_pdf (pages : list text)
  : result (list (float * nat) * nlp_dict) :=
  process_pages pages 1 ([], []).

(** ** Selection *)

(** [max(items, key=key)]: the first item is kept until a later one has a
    key that is greater. *)
Fixpoint max_from (A : Type) (key : A -> float) (best : A) (items : list A) : A :=
  match items with
  | [] => best
  | x :: items' =>
      max_from key (if (key best <? key x)%float then x else best) items'
  end.

Definition py_max (A : Type) (key : A -> float) (items : list A) : result A :=
  match items with
  | [] => Raise ValueError
  | x :: items' => Ok (max_from key x items')
  end.

Definition find_largest_number (nums : list (float * nat))
  : result (option (float * nat)) :=
  match nums with
  | [] => Ok None
  | _ :: _ =>
      match py_max fst nums with
      | Ok best => Ok (Some best)
      | Raise e => Raise e
      end
  end.

(** Equality of two tuples: component by component, floats by [==].
    (Python also takes an object as equal to itself; that differs from
    [==] on a NaN only.) *)
Definition record_eqb (a b : number_record) : bool :=
  (original a =? original b)%float && (scaled a =? scaled b)%float
  && Text.eqb (scale_word a) (scale_word b) && (position a =? position b).

(** [largest in numbers] *)
Definition record_in (r : number_record) (l : list number_record) : bool :=
  existsb (record_eqb r) l.

(** [max(page, key=...) for page in nlp_results.values() if page] *)
Fixpoint page_maxima (d : nlp_dict) : result (list number_record) :=
  match d with
  | [] => Ok []
  | (_, []) :: d' => page_maxima d'
  | (_, page) :: d' =>
      match py_max scaled page, page_maxima d' with
      | Ok r, Ok rs => Ok (r :: rs)
      | Raise e, _ => Raise e
      | _, Raise e => Raise e
      end
  end.

(** [next(page for page, numbers in nlp_results.items() if largest in numbers)] *)
Fixpoint first_page_with (r : number_record) (d : nlp_dict) : result nat :=
  match d with
  | [] => Raise StopIteration
  | (page, nums) :: d' =>
      if record_in r nums then Ok page else first_page_with r d'
  end.

Definition find_largest_nlp_number (nlp_results : nlp_dict)
  : result (option (number_record * nat)) :=
  match nlp_results with
  | [] => Ok None
  | _ :: _ =>
      match page_maxima nlp_results with
      | Raise e => Raise e
      | Ok [] => Ok None
      | Ok (r :: rs) =>
          let largest := max_from scaled r rs in
          match first_page_with largest nlp_results with
          | Ok page => Ok (Some (largest, page))
          | Raise e => Raise e
          end
      end
  end.

(** ** The ten largest *)

(** [list.sort] is a stable sort that compares with [<] only. On keys that
    [<] orders totally there is one stable arrangement, and insertion from
    the right computes it. *)
Fixpoint insert_by (A : Type) (key : A -> float) (x : A) (l : list A) : list A :=
  match l with
  | [] => [x]
  | y :: l' =>
      if (key y <? key x)%float then y :: insert_by key x l' else x :: y :: l'
  end.

Fixpoint stable_sort (A : Type) (key : A -> float) (l : list A) : list A :=
  match l with
  | [] => []
  | x :: l' => insert_by key x (stable_sort key l')
  end.

(** [sorted(l, key=key, reverse=True)]: the list is reversed, sorted and
    reversed again, which keeps items of equal keys in their order. *)
Definition sorted_reverse (A : Type) (key : A -> float) (l : list A) : list A :=
  rev (stable_sort key (rev l)).

(** [sorted(l, key=..., reverse=True)[:10]]; the key [float(str(x))]
    is [x] itself, as [str] of a float reads back as that float. *)
Definition top10 (A : Type) (key : A -> float) (l : list A) : list A :=
  firstn 10 (sorted_reverse key l).

(** [all_nlp_numbers] of [display_results]. *)
Definition all_nlp_numbers (d : nlp_dict) : list (number_record * nat) :=
  flat_map (fun '(page, nums) => map (fun r => (r, page)) nums) d.

Definition top10_base (nums : list (float * nat)) : list (float * nat) :=
  top10 fst nums.

Definition top10_nlp (d : nlp_dict) : list (number_record * nat) :=
  top10 (fun x => scaled (fst x)) (all_nlp_numbers d).

(** ** The selection at the head of [main] *)

(** [base_numbers, nlp_results = process_pdf(pdf_path)], then the two
    selectors on the two results. *)
Definition main_largest (pages : list text)
  : result (option (float * nat) * option (number_record * nat)) :=
  match process_pdf pages with
  | Raise e => Raise e
  | Ok (base_numbers, nlp_results) =>
      match find_largest_number base_numbers with
      | Raise e => Raise e
      | Ok largest_base =>
          match find_largest_nlp_number nlp_results with
          | Raise e => Raise e
          | Ok largest_nlp => Ok (largest_base, largest_nlp)
          end
      end
  end.

(* ================================================================== *)
(** * The order of floats *)

Module FloatOrder.

Local Open Scope Z_scope.

(** A float that is not a NaN has a rank: its class, then its exponent
    and its mantissa, negated for a negative number. The comparison of
    two floats is the lexicographic comparison of their ranks. *)
Definition rank (f : spec_float) : Z * Z * Z :=
  match f with
  | S754_nan => (0, 0, 0)
  | S754_zero _ => (0, 0, 0)
  | S754_infinity true => (-2, 0, 0)
  | S754_infinity false => (2, 0, 0)
  | S754_finite true m e => (-1, - e, - Zpos m)
  | S754_finite false m e => (1, e, Zpos m)
  end.

Definition lt3 (x y : Z * Z * Z) : Prop :=
  let '(a1, b1, c1) := x in
  let '(a2, b2, c2) := y in
  a1 < a2 \/ (a1 = a2 /\ (b1 < b2 \/ (b1 = b2 /\ c1 < c2))).

Definition lex3 (x y : Z * Z * Z) : comparison :=
  let '(a1, b1, c1) := x in
  let '(a2, b2, c2) := y in
  match a1 ?= a2 with
  | Eq => match b1 ?= b2 with Eq => c1 ?= c2 | r => r end
  | r => r
  end.

Definition rk (x : float) : Z * Z * Z := rank (Prim2SF x).

Definition not_nan (x : float) : Prop := is_nan x = false.

End FloatOrder.

Import FloatOrder.

(* ================================================================== *)
(** * What the theorems speak of *)

(** The cues of the four keywords, in the order of the table. *)
Definition thousand := of_string "thousand".
Definition million := of_string "million".
Definition billion := of_string "billion".
Definition trillion := of_string "trillion".

(** A record as a tuple, its word as a string. *)
Definition record_view (r : number_record) : float * float * string * nat :=
  (original r, scaled r, string_of_list_ascii (scale_word r), position r).

(** [Revenue in millions\n100 (net) \n150.5] *)
Definition revenue_text : text :=
  of_string "Revenue in millions" ++ [newline]
    ++ of_string "100 (net) " ++ [newline] ++ of_string "150.5".

(** [in billions\nFY 2024\n2 million]: a fiscal-year heading after the
    phrase, then a literal followed by the word [million]. *)
Definition stacking_text : text :=
  of_string "in billions" ++ [newline] ++ of_string "FY 2024" ++ [newline]
    ++ of_string "2 million".

(** [best] is the largest item of [l], and the first of the largest:
    the items before it are smaller, the items after it are not greater. *)
Definition first_max (A : Type) (key : A -> float)
           (l : list A) (best : A) : Prop :=
  exists pre post,
    l = pre ++ best :: post
    /\ (forall x, In x pre -> (key x <? key best)%float = true)
    /\ (forall x, In x post -> (key x <=? key best)%float = true).

(** No key is a NaN. *)
Definition keys_ok (A : Type) (key : A -> float) (l : list A) : Prop :=
  Forall (fun x => not_nan (key x)) l.

(** One comparison of [max]: the later item wins when it is greater. *)
Definition later_if_greater (A : Type) (key : A -> float) (b x : A) : A :=
  if (key b <? key x)%float then x else b.

(** The key of the contextual top-10 and selector: the scaled value. *)
Definition scaled_of (x : number_record * nat) : float := scaled (fst x).

(** Both values of a record are numbers. *)
Definition record_ok (r : number_record) : Prop :=
  not_nan (original r) /\ not_nan (scaled r).

(** The records of all pages, in the order of the mapping. *)
Definition records_of (d : nlp_dict) : list number_record :=
  List.concat (map snd d).

(** The largest record of each page that has records. *)
Fixpoint maxima (d : nlp_dict) : list number_record :=
  match d with
  | [] => []
  | (_, []) :: d' => maxima d'
  | (_, x :: l) :: d' => max_from scaled x l :: maxima d'
  end.

(** [m] is the largest value of a page. *)
Definition page_max (values : list float) (m : float) : Prop :=
  In m values /\ forall v, In v values -> (v <=? m)%float = true.

(** The values of a page as pairs. *)
Definition on_page (page : nat) (values : list float) : list (float * nat) :=
  map (fun v => (v, page)) values.

(** 999.99 as binary64. *)
Definition v999_99 : float := 0x1.f3feb851eb852p+9%float.

(** Items of the key [v]. *)
Definition has_key (A : Type) (key : A -> float) (v : float) (x : A) : bool :=
  (key x =? v)%float.

(** [a] stands before [b] only if [a] is not smaller. *)
Definition descending (A : Type) (key : A -> float) (l : list A) : Prop :=
  StronglySorted (fun a b => (key a <? key b)%float = false) l.

(** [a] stands before [b] only if [a] is not greater. *)
Definition ascending (A : Type) (key : A -> float) (l : list A) : Prop :=
  StronglySorted (fun a b => (key b <? key a)%float = false) l.




(** The words of a regular expression. *)
Inductive matches : regex -> text -> Prop :=
| MEps : matches Eps []
| MChr p a : p a = true -> matches (Chr p) [a]
| MSeq r1 r2 w1 w2 :
    matches r1 w1 -> matches r2 w2 -> matches (Seq r1 r2) (w1 ++ w2)
| MAltL r1 r2 w : matches r1 w -> matches (Alt r1 r2) w
| MAltR r1 r2 w : matches r2 w -> matches (Alt r1 r2) w
| MStarNil r : matches (Star r) []
| MStarCons r w1 w2 :
    matches r w1 -> matches (Star r) w2 -> matches (Star r) (w1 ++ w2)
| MGroup n r w : matches r w -> matches (Group n r) w.

(** [bound_by r n w]: [r] has a group [n] whose expression accepts [w]. *)
Fixpoint bound_by (r : regex) (n : nat) (w : text) : Prop :=
  match r with
  | Eps | Chr _ => False
  | Seq r1 r2 | Alt r1 r2 => bound_by r1 n w \/ bound_by r2 n w
  | Star r1 => bound_by r1 n w
  | Group m r1 => (m = n /\ matches r1 w) \/ bound_by r1 n w
  end.

(** Captures that all come from groups of [r]. *)
Definition bindings_of (r : regex) (new : captures) : Prop :=
  Forall (fun b => bound_by r (fst b) (snd b)) new.

(** Decimal digits only. *)
Definition all_digits (w : text) : Prop := Forall (fun c => is_digit c = true) w.

(** A sign, digits, and a fraction or none. *)
Definition sign_shape (sg : text) : Prop :=
  sg = [] \/ sg = of_string "-" \/ sg = of_string "+".

(** Nothing, or a point and digits. *)
Definition fraction_shape (f : text) : Prop :=
  f = [] \/ exists ds, f = of_string "." ++ ds /\ ds <> [] /\ all_digits ds.

(** A plain decimal literal. *)
Definition decimal_shape (u : text) : Prop :=
  exists sg ds f,
    u = sg ++ ds ++ f
    /\ sign_shape sg /\ ds <> [] /\ all_digits ds /\ fraction_shape f.

(** The state after the first [k] matches. *)
Definition state_after (t : text) (k : nat) : scan_state :=
  scan t (firstn k (context_matches t)).

(** Group 1 of [m] is [w], and [float] reads it as [v]. *)
Definition converts (m : re_match) (w : text) (v : float) : Prop :=
  group 1 (m_groups m) = Some w /\ py_float (remove_commas w) = Some v.

(** What one round does to the pending boundaries, the scale and the last
    boundary. *)
Definition keeps (st st' : scan_state) : Prop :=
  table_boundaries st' = table_boundaries st
  /\ current_scale st' = current_scale st
  /\ last_boundary st' = last_boundary st.

(** The round at offset [pos] consumed the boundary [b]. *)
Definition consumes (t : text) (b : nat) (pos : nat)
           (st st' : scan_state) : Prop :=
  table_boundaries st = b :: table_boundaries st'
  /\ current_scale st' = extract_scale_factor (slice t (last_boundary st) pos)
  /\ last_boundary st' = b.

(** The number of boundaries consumed by the first [k] matches. *)
Definition consumed (t : text) (k : nat) : nat :=
  List.length (detect_table_boundaries t)
  - List.length (table_boundaries (state_after t k)).

(** One round of the loop, in terms of the detected boundaries: with [c]
    of them consumed before the round, either the round consumes boundary
    [c], which lies before the match, or it leaves everything as it is. *)
Definition round_spec (t : text) (k : nat) (m : re_match) : Prop :=
  let bs := detect_table_boundaries t in
  let st := state_after t k in
  let st' := state_after t (S k) in
  exists c,
    c <= k
    /\ table_boundaries st = skipn c bs
    /\ ((exists b,
            nth_error bs c = Some b /\ b < m_start m
            /\ table_boundaries st' = skipn (S c) bs
            /\ current_scale st'
               = extract_scale_factor (slice t (last_boundary st) (m_start m))
            /\ last_boundary st' = b)
        \/ ((forall b, nth_error bs c = Some b -> m_start m <= b)
            /\ keeps st st')).

(** Two headings with no literal between them, then two literals: the
    first literal consumes the first heading only. *)
Definition two_headings_text : text :=
  [newline] ++ of_string "Fiscal Year" ++ [newline] ++ of_string "x"
    ++ [newline] ++ of_string "Fiscal Year" ++ [newline]
    ++ of_string "7 apples 8".

(** The record of a match: its number converted, at its offset. *)
Definition record_of_match (m : re_match) (r : number_record) : Prop :=
  exists w, converts m w (original r) /\ position r = m_start m.

(** What the results hold for the page [p] of text [t], given the mapping
    [before] the pages were read. *)
Definition page_held (before : nlp_dict) (p : nat) (t : text)
           (all_numbers : list (float * nat)) (nlp_results : nlp_dict) : Prop :=
  (extract_numbers_with_context t = [] ->
   dict_get nlp_results p = dict_get before p)
  /\ (extract_numbers_with_context t <> [] ->
      dict_get nlp_results p = Some (extract_numbers_with_context t))
  /\ (exists vals,
         extract_all_numbers t = Ok vals
         /\ forall v, In v vals -> In (v, p) all_numbers).

(** No page is mapped to an empty sequence. *)
Definition no_empty_page (d : nlp_dict) : Prop :=
  forall e, In e d -> snd e <> [].

(** A finite float that is not zero, as 1 and the four factors are. *)
Definition is_scale (x : float) : Prop :=
  exists s m e, Prim2SF x = S754_finite s m e.

(** The values of both results are numbers. *)
Definition results_ok (acc : list (float * nat) * nlp_dict) : Prop :=
  keys_ok fst (fst acc) /\ Forall record_ok (records_of (snd acc)).

(** [5\nFiscal Year]: a heading after the only literal. *)
Definition trailing_heading_text : text :=
  of_string "5" ++ [newline] ++ of_string "Fiscal Year".

(** A regular expression that matches wherever what follows it does:
    made of stars, options and the empty word. *)
Fixpoint never_fails (r : regex) : bool :=
  match r with
  | Eps => true
  | Chr _ => false
  | Seq r1 r2 => never_fails r1 && never_fails r2
  | Alt r1 r2 => never_fails r1 || never_fails r2
  | Star _ => true
  | Group _ r1 => never_fails r1
  end.

(** The two alternatives of the number pattern. *)
Definition first_alternative : regex :=
  Seq (Opt (one_of (of_string "-+")))
    (Seq (Repeat 1 2 digit)
      (Seq (Star (Seq (Lit (of_string ",")) (Times 3 digit)))
           fraction)).

Definition second_alternative : regex := Seq (Plus digit) fraction.

Definition is_sign (c : ascii) : bool := existsb (Ascii.eqb c) (of_string "-+").

(** A sign or none, one to three digits, and then nothing, a comma or a
    point. *)
Definition literal_shape (w : text) : Prop :=
  exists sg ds rest,
    w = sg ++ ds ++ rest
    /\ sign_shape sg /\ all_digits ds
    /\ 1 <= List.length ds <= 3
    /\ (rest = []
        \/ exists c rest', rest = c :: rest' /\ (is_char 44 c || is_char 46 c) = true).

(** A digit, or a sign and a digit, at the head of [s]. *)
Definition starts_number (s : text) : bool :=
  match s with
  | [] => false
  | c :: rest =>
      is_digit c
      || (is_sign c && match rest with d :: _ => is_digit d | [] => false end)
  end.

(** The values an ambient scale can take. *)
Definition scales : list float := [1; 1e3; 1e6; 1e9; 1e12]%float.

(** The record [r] is the one that round [k] of the loop makes of the
    match [m]. *)
Definition record_at (t : text) (k : nat) (m : re_match) (r : number_record)
  : Prop :=
  (exists w, converts m w (original r))
  /\ position r = m_start m
  /\ scale_word r = word_or_na (group 2 (m_groups m))
  /\ scaled r
     = apply_scale_word (group 2 (m_groups m))
         (original r * current_scale (state_after t (S k)))%float.

(** The base values of a page. *)
Definition page_values (t : text) : list float :=
  match extract_all_numbers t with
  | Ok vals => vals
  | Raise _ => []
  end.

(** The base values of the pages from number [k] on, page after page. *)
Fixpoint expected_numbers (k : nat) (pages : list text) : list (float * nat) :=
  match pages with
  | [] => []
  | t :: rest => on_page k (page_values t) ++ expected_numbers (S k) rest
  end.

(** The pages that have contextual records, from number [k] on, each with
    its records. *)
Fixpoint expected_results (k : nat) (pages : list text) : nlp_dict :=
  match pages with
  | [] => []
  | t :: rest =>
      match extract_numbers_with_context t with
      | [] => expected_results (S k) rest
      | r :: rs => (k, r :: rs) :: expected_results (S k) rest
      end
  end.

Section FloatOrderFacts.

Local Open Scope Z_scope.

Lemma SFcompare_rank (a b : spec_float) :
  a <> S754_nan -> b <> S754_nan ->
  SFcompare a b = Some (lex3 (rank a) (rank b)).
Proof.
  intros Ha Hb.
  destruct a as [sa|sa| |sa ma ea]; try congruence;
    destruct b as [sb|sb| |sb mb eb]; try congruence;
    try destruct sa; try destruct sb; try reflexivity.
  cbn [SFcompare rank lex3]. rewrite Z.compare_refl.
    destruct (Z.compare_spec ea eb) as [E|E|E],
             (Z.compare_spec (- ea) (- eb)) as [F|F|F];
      try lia; reflexivity.
Qed.

Lemma lex3_Lt (x y : Z * Z * Z) : lex3 x y = Lt <-> lt3 x y.
Proof.
  destruct x as [[a1 b1] c1], y as [[a2 b2] c2]. unfold lex3, lt3.
  destruct (Z.compare_spec a1 a2), (Z.compare_spec b1 b2),
    (Z.compare_spec c1 c2);
    split; intros H'; try discriminate; try reflexivity; lia.
Qed.

Lemma lex3_Eq (x y : Z * Z * Z) : lex3 x y = Eq <-> x = y.
Proof.
  destruct x as [[a1 b1] c1], y as [[a2 b2] c2]. unfold lex3.
  destruct (Z.compare_spec a1 a2), (Z.compare_spec b1 b2),
    (Z.compare_spec c1 c2);
    split; intros H'; try discriminate; try reflexivity;
    try (inversion H'; lia); subst; reflexivity.
Qed.

Lemma lex3_Gt (x y : Z * Z * Z) : lex3 x y = Gt <-> lt3 y x.
Proof.
  destruct x as [[a1 b1] c1], y as [[a2 b2] c2]. unfold lex3, lt3.
  destruct (Z.compare_spec a1 a2), (Z.compare_spec b1 b2),
    (Z.compare_spec c1 c2);
    split; intros H'; try discriminate; try reflexivity; lia.
Qed.

Lemma not_nan_spec (x : float) : not_nan x <-> Prim2SF x <> S754_nan.
Proof.
  unfold not_nan, is_nan. rewrite eqb_spec. unfold SFeqb.
  split.
  - intros H E. rewrite E in H. discriminate.
  - intros H. rewrite (SFcompare_rank H H).
    replace (lex3 (rank (Prim2SF x)) (rank (Prim2SF x))) with Eq;
      [ reflexivity | symmetry; now apply lex3_Eq ].
Qed.

(** The three outcomes of comparing two floats that are not NaN. *)
Lemma compare_cases (x y : float) :
  not_nan x -> not_nan y ->
  ((x <? y)%float = true /\ (y <? x)%float = false /\ (x =? y)%float = false
     /\ (x <=? y)%float = true /\ (y <=? x)%float = false /\ lt3 (rk x) (rk y))
  \/ ((x <? y)%float = false /\ (y <? x)%float = true /\ (x =? y)%float = false
     /\ (x <=? y)%float = false /\ (y <=? x)%float = true /\ lt3 (rk y) (rk x))
  \/ ((x <? y)%float = false /\ (y <? x)%float = false /\ (x =? y)%float = true
     /\ (x <=? y)%float = true /\ (y <=? x)%float = true /\ rk x = rk y).
Proof.
  intros Hx Hy. apply not_nan_spec in Hx, Hy.
  rewrite !ltb_spec, !leb_spec, !eqb_spec. unfold SFltb, SFleb, SFeqb.
  rewrite (SFcompare_rank Hx Hy), (SFcompare_rank Hy Hx). fold (rk x) (rk y).
  destruct (lex3 (rk x) (rk y)) eqn:E.
  - right; right. apply lex3_Eq in E. rewrite E.
    replace (lex3 (rk y) (rk y)) with Eq by (symmetry; now apply lex3_Eq).
    repeat split; reflexivity.
  - left. apply lex3_Lt in E.
    replace (lex3 (rk y) (rk x)) with Gt by (symmetry; now apply lex3_Gt).
    repeat split; try reflexivity. exact E.
  - right; left. apply lex3_Gt in E.
    replace (lex3 (rk y) (rk x)) with Lt by (symmetry; now apply lex3_Lt).
    repeat split; try reflexivity. exact E.
Qed.

Lemma ltb_not_nan (x y : float) :
  (x <? y)%float = true -> not_nan x /\ not_nan y.
Proof.
  rewrite ltb_spec. unfold SFltb. intros H.
  split; apply not_nan_spec; intros E; rewrite E in H;
    [ | destruct (Prim2SF x) ]; discriminate.
Qed.

Lemma ltb_irrefl (x : float) : (x <? x)%float = false.
Proof.
  destruct (x <? x)%float eqn:E; [ | reflexivity ].
  destruct (ltb_not_nan E) as [Hx _].
  destruct (compare_cases Hx Hx) as [H|[H|H]]; destruct H as (H1 & H2 & _);
    congruence.
Qed.

Lemma lt3_trans (a b c : Z * Z * Z) : lt3 a b -> lt3 b c -> lt3 a c.
Proof.
  destruct a as [[a1 a2] a3], b as [[b1 b2] b3], c as [[c1 c2] c3].
  unfold lt3. lia.
Qed.

Lemma lt3_irrefl (a : Z * Z * Z) : ~ lt3 a a.
Proof. destruct a as [[a1 a2] a3]. unfold lt3. lia. Qed.

Lemma ltb_trans (x y z : float) :
  (x <? y)%float = true -> (y <? z)%float = true -> (x <? z)%float = true.
Proof.
  intros H1 H2.
  destruct (ltb_not_nan H1) as [Hx Hy], (ltb_not_nan H2) as [_ Hz].
  destruct (compare_cases Hx Hy) as [A|[A|A]];
    destruct A as (A1 & A2 & A3 & A4 & A5 & A6); try congruence.
  destruct (compare_cases Hy Hz) as [B|[B|B]];
    destruct B as (B1 & B2 & B3 & B4 & B5 & B6); try congruence.
  destruct (compare_cases Hx Hz) as [C|[C|C]];
    destruct C as (C1 & C2 & C3 & C4 & C5 & C6); try assumption; exfalso.
  - apply (@lt3_irrefl (rk x)). eauto using lt3_trans.
  - rewrite C6 in A6. apply (@lt3_irrefl (rk z)). eauto using lt3_trans.
Qed.

(** [x >= y >= z] gives [x >= z]. *)
Lemma geb_trans (x y z : float) :
  not_nan x -> not_nan y -> not_nan z ->
  (x <? y)%float = false -> (y <? z)%float = false -> (x <? z)%float = false.
Proof.
  intros Hx Hy Hz H1 H2.
  destruct (compare_cases Hx Hy) as [A|[A|A]];
    destruct A as (A1 & A2 & A3 & A4 & A5 & A6); try congruence;
  destruct (compare_cases Hy Hz) as [B|[B|B]];
    destruct B as (B1 & B2 & B3 & B4 & B5 & B6); try congruence;
  destruct (compare_cases Hx Hz) as [C|[C|C]];
    destruct C as (C1 & C2 & C3 & C4 & C5 & C6); try assumption; exfalso.
  - apply (@lt3_irrefl (rk x)). eauto using lt3_trans.
  - rewrite <- B6 in C6. apply (@lt3_irrefl (rk x)). eauto using lt3_trans.
  - rewrite A6 in C6. apply (@lt3_irrefl (rk y)). eauto using lt3_trans.
  - rewrite A6, B6 in C6. now apply lt3_irrefl in C6.
Qed.

Lemma leb_ltb (x y : float) :
  not_nan x -> not_nan y -> (x <=? y)%float = negb (y <? x)%float.
Proof.
  intros Hx Hy.
  destruct (compare_cases Hx Hy) as [A|[A|A]];
    destruct A as (A1 & A2 & A3 & A4 & A5 & A6);
    rewrite A4, A2; reflexivity.
Qed.

Lemma eqb_ltb (x y : float) :
  not_nan x -> not_nan y ->
  (x =? y)%float = negb (x <? y)%float && negb (y <? x)%float.
Proof.
  intros Hx Hy.
  destruct (compare_cases Hx Hy) as [A|[A|A]];
    destruct A as (A1 & A2 & A3 & A4 & A5 & A6);
    rewrite A1, A2, A3; reflexivity.
Qed.

End FloatOrderFacts.

(* ================================================================== *)
(** * The scale resolver *)

Section ScaleResolver.

Lemma starts_with_app (p q t : text) :
  starts_with (p ++ q) t = true -> starts_with p t = true.
Proof.
  revert t. induction p as [|a p IH]; intros t H.
  - destruct t; reflexivity.
  - destruct t as [|b t]; simpl in *; [ discriminate | ].
    apply andb_true_iff in H. destruct H as [H1 H2].
    apply andb_true_iff. split; [ exact H1 | now apply IH ].
Qed.

(** A text that contains a phrase contains each prefix of the phrase. *)
Lemma contains_app (p q t : text) :
  contains (p ++ q) t = true -> contains p t = true.
Proof.
  induction t as [|b t IH]; simpl; rewrite !orb_true_iff.
  - intros [H|H]; [ left; now apply starts_with_app with q | discriminate ].
  - intros [H|H]; [ left; now apply starts_with_app with q | right; now apply IH ].
Qed.

Lemma lower_char_idem (c : ascii) : lower_char (lower_char c) = lower_char c.
Proof.
  destruct c as [[] [] [] [] [] [] [] []]; reflexivity.
Qed.

Lemma lower_idem (t : text) : lower (lower t) = lower t.
Proof.
  unfold lower. rewrite map_map. apply map_ext. exact lower_char_idem.
Qed.

Lemma first_factor_lower (table : list (text * float)) (t u : text) :
  lower t = lower u -> first_factor table t = first_factor table u.
Proof.
  intros E. induction table as [|[w f] table IH]; simpl; trivial.
  unfold cue_in. rewrite E, IH. reflexivity.
Qed.

Lemma scale_factors_table :
  scale_factors =
    [ (thousand, 1e3%float); (million, 1e6%float);
      (billion, 1e9%float); (trillion, 1e12%float) ].
Proof. reflexivity. Qed.

Lemma resolver_cases (t : text) :
  extract_scale_factor t =
    if cue_in thousand t then 1e3%float
    else if cue_in million t then 1e6%float
    else if cue_in billion t then 1e9%float
    else if cue_in trillion t then 1e12%float
    else 1%float.
Proof. reflexivity. Qed.

Lemma same_abbreviation : abbrev_cue trillion = abbrev_cue thousand.
Proof. reflexivity. Qed.

End ScaleResolver.

(* ================================================================== *)
(** * Selection of the largest *)

Section Maximum.

Variable A : Type.
Variable key : A -> float.

Lemma max_from_fold (items : list A) (best : A) :
  max_from key best items = fold_left (later_if_greater key) items best.
Proof.
  revert best. induction items as [|x items IH]; intros best; simpl; trivial.
Qed.

Lemma max_from_app (l1 l2 : list A) (best : A) :
  max_from key best (l1 ++ l2) = max_from key (max_from key best l1) l2.
Proof. rewrite !max_from_fold. apply fold_left_app. Qed.

Lemma le_lt_trans (y b x : float) :
  not_nan y -> not_nan b -> not_nan x ->
  (b <? y)%float = false -> (b <? x)%float = true -> (y <? x)%float = true.
Proof.
  intros Hy Hb Hx H1 H2.
  destruct (y <? x)%float eqn:E; [ reflexivity | ].
  rewrite (geb_trans Hb Hy Hx H1 E) in H2. discriminate.
Qed.

Lemma max_from_spec (items pre mid : list A) (best : A) :
  keys_ok key (pre ++ best :: mid ++ items) ->
  (forall x, In x pre -> (key x <? key best)%float = true) ->
  (forall x, In x mid -> (key best <? key x)%float = false) ->
  first_max key (pre ++ best :: mid ++ items) (max_from key best items).
Proof.
  revert pre mid best.
  induction items as [|x items IH]; intros pre mid best Hok Hpre Hmid.
  - simpl. exists pre, (mid ++ []). repeat split; trivial.
    intros x Hx. rewrite app_nil_r in Hx.
    unfold keys_ok in Hok. rewrite Forall_forall in Hok.
    rewrite leb_ltb.
    + now rewrite (Hmid x Hx).
    + apply Hok. rewrite in_app_iff. right. right. rewrite app_nil_r. exact Hx.
    + apply Hok. rewrite in_app_iff. right. left. reflexivity.
  - simpl max_from.
    assert (Hall : forall y, In y (pre ++ best :: mid ++ x :: items) ->
                             not_nan (key y)).
    { unfold keys_ok in Hok. rewrite Forall_forall in Hok. exact Hok. }
    assert (Nb : not_nan (key best)).
    { apply Hall. rewrite in_app_iff. right. left. reflexivity. }
    assert (Nx : not_nan (key x)).
    { apply Hall. rewrite in_app_iff. right. right.
      rewrite in_app_iff. right. left. reflexivity. }
    destruct (key best <? key x)%float eqn:E.
    + replace (pre ++ best :: mid ++ x :: items)
        with ((pre ++ best :: mid) ++ x :: [] ++ items)
        by (rewrite <- app_assoc; reflexivity).
      apply IH.
      * rewrite <- app_assoc. exact Hok.
      * intros y Hy. rewrite in_app_iff in Hy. destruct Hy as [Hy|[Hy|Hy]].
        -- apply ltb_trans with (key best); [ now apply Hpre | exact E ].
        -- subst y. exact E.
        -- apply le_lt_trans with (key best); trivial.
           ++ apply Hall. rewrite in_app_iff. right. right.
              rewrite in_app_iff. now left.
           ++ now apply Hmid.
      * intros y [].
    + replace (pre ++ best :: mid ++ x :: items)
        with (pre ++ best :: (mid ++ [x]) ++ items)
        by (rewrite <- app_assoc; reflexivity).
      apply IH.
      * rewrite <- app_assoc. exact Hok.
      * exact Hpre.
      * intros y Hy. rewrite in_app_iff in Hy. destruct Hy as [Hy|[Hy|[]]].
        -- now apply Hmid.
        -- subst y. exact E.
Qed.

Lemma py_max_first_max (x : A) (items : list A) :
  keys_ok key (x :: items) ->
  first_max key (x :: items) (max_from key x items).
Proof.
  intros Hok.
  apply (@max_from_spec items [] [] x); simpl; trivial; intros y [].
Qed.

(** Taking the larger of [b] and the largest of a page is taking the
    largest from [b] through the page. *)
Lemma later_if_greater_assoc (b x y : A) :
  not_nan (key b) -> not_nan (key x) -> not_nan (key y) ->
  later_if_greater key b (later_if_greater key x y)
  = later_if_greater key (later_if_greater key b x) y.
Proof.
  intros Nb Nx Ny. unfold later_if_greater.
  destruct (key x <? key y)%float eqn:Exy;
    destruct (key b <? key x)%float eqn:Ebx;
    destruct (key b <? key y)%float eqn:Eby;
    rewrite ?Exy, ?Ebx, ?Eby; try reflexivity; exfalso.
  - rewrite (ltb_trans Ebx Exy) in Eby. discriminate.
  - rewrite (geb_trans Nb Nx Ny Ebx Exy) in Eby. discriminate.
Qed.

Lemma max_from_merge (l : list A) (b x : A) :
  not_nan (key b) -> keys_ok key (x :: l) ->
  later_if_greater key b (max_from key x l) = max_from key b (x :: l).
Proof.
  revert b x. induction l as [|y l IH]; intros b x Nb Hok; simpl; trivial.
  inversion Hok as [|? ? Nx Hl]; subst. inversion Hl as [|? ? Ny Hl']; subst.
  fold (later_if_greater key x y). fold (later_if_greater key b x).
  fold (later_if_greater key (later_if_greater key b x) y).
  assert (Nxy : not_nan (key (later_if_greater key x y))).
  { unfold later_if_greater. destruct (key x <? key y)%float; assumption. }
  rewrite (IH b (later_if_greater key x y) Nb) by (constructor; assumption).
  simpl. fold (later_if_greater key b (later_if_greater key x y)).
  rewrite later_if_greater_assoc by assumption. reflexivity.
Qed.

End Maximum.

Section NlpMaximum.

Lemma page_maxima_ok (d : nlp_dict) : page_maxima d = Ok (maxima d).
Proof.
  induction d as [|[pg [|x l]] d IH]; simpl; trivial.
  rewrite IH. reflexivity.
Qed.

Lemma records_of_flat (d : nlp_dict) :
  map fst (all_nlp_numbers d) = records_of d.
Proof.
  unfold all_nlp_numbers, records_of.
  induction d as [|[pg nums] d IH]; simpl; trivial.
  rewrite map_app, IH, map_map. simpl. rewrite map_id. reflexivity.
Qed.

Lemma fst_max_from (A B : Type) (key : A -> float) (b : A * B) (l : list (A * B)) :
  fst (max_from (fun x => key (fst x)) b l) = max_from key (fst b) (map fst l).
Proof.
  revert b. induction l as [|x l IH]; intros b; simpl; trivial.
  rewrite IH. destruct (key (fst b) <? key (fst x))%float; reflexivity.
Qed.

Lemma max_from_not_nan (A : Type) (key : A -> float) (l : list A) (b : A) :
  not_nan (key b) -> keys_ok key l -> not_nan (key (max_from key b l)).
Proof.
  revert b. induction l as [|x l IH]; intros b Nb Hok; simpl; trivial.
  inversion Hok; subst. apply IH; trivial.
  destruct (key b <? key x)%float; assumption.
Qed.

Lemma keys_ok_app (A : Type) (key : A -> float) (l1 l2 : list A) :
  keys_ok key (l1 ++ l2) <-> keys_ok key l1 /\ keys_ok key l2.
Proof. unfold keys_ok. apply Forall_app. Qed.

Lemma maxima_fold (d : nlp_dict) (b : number_record) :
  not_nan (scaled b) -> keys_ok scaled (records_of d) ->
  max_from scaled b (maxima d) = max_from scaled b (records_of d).
Proof.
  revert b. induction d as [|[pg [|x l]] d IH]; intros b Nb Hok; trivial.
  - simpl. apply IH; trivial.
  - unfold records_of in Hok. simpl in Hok.
    change (keys_ok scaled ((x :: l) ++ records_of d)) in Hok.
    apply keys_ok_app in Hok. destruct Hok as [Hxl Hd].
    change (records_of ((pg, x :: l) :: d)) with ((x :: l) ++ records_of d).
    rewrite max_from_app. simpl maxima.
    change (max_from scaled b (max_from scaled x l :: maxima d))
      with (max_from scaled
              (later_if_greater scaled b (max_from scaled x l)) (maxima d)).
    rewrite max_from_merge by assumption.
    apply IH; trivial.
    apply max_from_not_nan; assumption.
Qed.

(** The largest of the page maxima is the largest of all records. *)
Lemma largest_of_maxima (d : nlp_dict) (x0 : number_record * nat)
      (rest : list (number_record * nat)) :
  all_nlp_numbers d = x0 :: rest ->
  keys_ok scaled (records_of d) ->
  exists m ms,
    maxima d = m :: ms
    /\ max_from scaled m ms = fst (max_from scaled_of x0 rest).
Proof.
  induction d as [|[pg [|x l]] d IH]; intros Hflat Hok.
  - discriminate.
  - apply IH; assumption.
  - unfold all_nlp_numbers in Hflat. simpl in Hflat.
    injection Hflat as Hx Hrest.
    exists (max_from scaled x l), (maxima d). split; [ reflexivity | ].
    unfold scaled_of. rewrite fst_max_from. subst x0 rest. simpl fst.
    rewrite map_app, map_map. simpl. rewrite map_id.
    fold (all_nlp_numbers d). rewrite records_of_flat.
    unfold records_of in Hok. simpl in Hok.
    change (keys_ok scaled ((x :: l) ++ records_of d)) in Hok.
    apply keys_ok_app in Hok. destruct Hok as [Hxl Hd].
    rewrite max_from_app. apply maxima_fold; trivial.
    inversion Hxl; subst. apply max_from_not_nan; assumption.
Qed.

Lemma eqb_refl_not_nan (x : float) : not_nan x -> (x =? x)%float = true.
Proof.
  unfold not_nan, is_nan. intros H. now apply negb_false_iff in H.
Qed.

Lemma text_eqb_refl (t : text) : Text.eqb t t = true.
Proof. unfold Text.eqb. destruct (list_eq_dec ascii_dec t t); congruence. Qed.

Lemma record_eqb_refl (r : number_record) :
  record_ok r -> record_eqb r r = true.
Proof.
  intros [H1 H2]. unfold record_eqb.
  rewrite !eqb_refl_not_nan, text_eqb_refl, Nat.eqb_refl by assumption.
  reflexivity.
Qed.

Lemma record_eqb_smaller (r x : number_record) :
  (scaled x <? scaled r)%float = true -> record_eqb r x = false.
Proof.
  intros H. destruct (ltb_not_nan H) as [Nx Nr]. unfold record_eqb.
  destruct (compare_cases Nr Nx) as [C|[C|C]];
    destruct C as (C1 & C2 & C3 & _); try congruence.
  rewrite C3, andb_false_r. reflexivity.
Qed.

(** The page found for the largest record is the page it stands on. *)
Lemma first_page_with_spec (d : nlp_dict) (r : number_record) (p : nat)
      (pre post : list (number_record * nat)) :
  all_nlp_numbers d = pre ++ (r, p) :: post ->
  (forall x, In x pre -> record_eqb r (fst x) = false) ->
  record_eqb r r = true ->
  first_page_with r d = Ok p.
Proof.
  revert pre. induction d as [|[pg nums] d IH]; intros pre Hflat Hpre Hrr.
  - destruct pre; discriminate.
  - unfold all_nlp_numbers in Hflat. simpl in Hflat.
    fold (all_nlp_numbers d) in Hflat. simpl.
    apply app_eq_app in Hflat. destruct Hflat as [l [[H1 H2]|[H1 H2]]].
    + (* the page ends inside [pre] or right before the record *)
      destruct l as [|y l].
      * rewrite app_nil_r in H1. simpl in H2.
        assert (E : record_in r nums = false).
        { unfold record_in. apply not_true_is_false. intros Hin.
          apply existsb_exists in Hin. destruct Hin as [x [Hx Hrx]].
          assert (F : record_eqb r x = false).
          { apply (Hpre (x, pg)). rewrite <- H1.
            apply in_map_iff. exists x. split; trivial. }
          congruence. }
        rewrite E.
        apply (IH []); [ symmetry; exact H2 | intros x [] | exact Hrr ].
      * simpl in H2. injection H2 as Hy Hpost. subst y.
        assert (E : record_in r nums = true).
        { unfold record_in. apply existsb_exists. exists r. split; trivial.
          assert (Hin : In (r, p) (map (fun r0 => (r0, pg)) nums)).
          { rewrite H1. rewrite in_app_iff. right. left. reflexivity. }
          apply in_map_iff in Hin. destruct Hin as [x [Hx Hin]].
          injection Hx as Hx _. subst x. exact Hin. }
        rewrite E.
        assert (Hin : In (r, p) (map (fun r0 => (r0, pg)) nums)).
        { rewrite H1. rewrite in_app_iff. right. left. reflexivity. }
        apply in_map_iff in Hin. destruct Hin as [x [Hx Hin]].
        injection Hx as _ Hp. now subst pg.
    + assert (E : record_in r nums = false).
      { unfold record_in. apply not_true_is_false. intros Hin.
        apply existsb_exists in Hin. destruct Hin as [x [Hx Hrx]].
        assert (F : record_eqb r x = false).
        { apply (Hpre (x, pg)). rewrite H1. rewrite in_app_iff. left.
          apply in_map_iff. exists x. split; trivial. }
        congruence. }
      rewrite E. apply (IH l); [ exact H2 | | exact Hrr ].
      intros x Hx. apply Hpre. rewrite H1, in_app_iff. now right.
Qed.

End NlpMaximum.

Section Selectors.

Lemma first_max_in (A : Type) (key : A -> float) (l : list A) (best : A) :
  first_max key l best -> In best l.
Proof.
  intros (pre & post & E & _). rewrite E, in_app_iff. right. now left.
Qed.

Lemma first_max_ge (A : Type) (key : A -> float) (l : list A) (best : A) :
  keys_ok key l -> first_max key l best ->
  forall x, In x l -> (key x <=? key best)%float = true.
Proof.
  intros Hok (pre & post & E & Hpre & Hpost) x Hx.
  unfold keys_ok in Hok. rewrite Forall_forall in Hok.
  assert (Nb : not_nan (key best)).
  { apply Hok. rewrite E, in_app_iff. right. now left. }
  rewrite E, in_app_iff in Hx. destruct Hx as [Hx|[Hx|Hx]].
  - destruct (compare_cases (Hok x ltac:(rewrite E, in_app_iff; now left)) Nb)
      as [C|[C|C]]; destruct C as (C1 & C2 & C3 & C4 & _);
      rewrite (Hpre x Hx) in C1; congruence.
  - subst x. rewrite leb_ltb, ltb_irrefl by assumption. reflexivity.
  - now apply Hpost.
Qed.

Lemma find_largest_number_spec (nums : list (float * nat)) :
  nums <> [] -> keys_ok fst nums ->
  exists best,
    find_largest_number nums = Ok (Some best) /\ first_max fst nums best.
Proof.
  intros Hne Hok. destruct nums as [|x nums]; [ congruence | ].
  exists (max_from fst x nums). split; [ reflexivity | ].
  now apply py_max_first_max.
Qed.

Lemma find_largest_nlp_number_spec (d : nlp_dict) :
  all_nlp_numbers d <> [] -> Forall record_ok (records_of d) ->
  exists best,
    find_largest_nlp_number d = Ok (Some best)
    /\ first_max scaled_of (all_nlp_numbers d) best.
Proof.
  intros Hne Hok.
  destruct (all_nlp_numbers d) as [|x0 rest] eqn:Hflat; [ congruence | ].
  assert (Hs : keys_ok scaled (records_of d)).
  { unfold keys_ok. apply Forall_forall. intros r Hr.
    rewrite Forall_forall in Hok. now destruct (Hok r Hr). }
  assert (Hk : keys_ok scaled_of (x0 :: rest)).
  { unfold keys_ok, scaled_of. apply Forall_forall. intros x Hx.
    rewrite Forall_forall in Hok. apply Hok.
    rewrite <- records_of_flat, Hflat. now apply in_map. }
  destruct (largest_of_maxima d Hflat Hs) as (m & ms & Hm & Hlargest).
  pose proof (py_max_first_max Hk) as Hfirst.
  set (best := max_from scaled_of x0 rest) in *.
  exists best. split; [ | exact Hfirst ].
  unfold find_largest_nlp_number.
  destruct d as [|e d']; [ discriminate | ].
  rewrite page_maxima_ok, Hm, Hlargest.
  destruct Hfirst as (pre & post & E & Hpre & Hpost).
  destruct best as [r p] eqn:Hbest. simpl fst.
  rewrite (@first_page_with_spec (e :: d') r p pre post); trivial.
  - congruence.
  - intros x Hx. apply record_eqb_smaller. now apply Hpre.
  - apply record_eqb_refl. rewrite Forall_forall in Hok. apply Hok.
    rewrite <- records_of_flat, Hflat, E.
    apply (in_map fst _ (r, p)). rewrite in_app_iff. right. now left.
Qed.

Lemma two_page_scenario (page1 page2 : list float) :
  Forall not_nan (page1 ++ page2) ->
  page_max page1 v999_99 -> page_max page2 1000%float ->
  exists v,
    find_largest_number (on_page 1 page1 ++ on_page 2 page2) = Ok (Some (v, 2))
    /\ (v =? 1000)%float = true.
Proof.
  intros Hnn [_ H1] [Hin2 H2].
  set (nums := on_page 1 page1 ++ on_page 2 page2).
  assert (Hok : keys_ok fst nums).
  { unfold keys_ok, nums, on_page. apply Forall_app in Hnn.
    apply Forall_app. rewrite !Forall_map. exact Hnn. }
  assert (Hne : nums <> []).
  { unfold nums, on_page. destruct page2; [ destruct Hin2 | ].
    destruct page1; discriminate. }
  destruct (find_largest_number_spec Hne Hok) as ([v pg] & Hfind & Hmax).
  assert (Hge : (1000 <=? v)%float = true).
  { apply (first_max_ge Hok Hmax (1000%float, 2)).
    unfold nums, on_page. rewrite in_app_iff. right.
    exact (in_map (fun v0 => (v0, 2)) page2 _ Hin2). }
  assert (Nv : not_nan v).
  { unfold keys_ok in Hok. rewrite Forall_forall in Hok.
    apply (Hok (v, pg)). now apply first_max_in with fst. }
  apply first_max_in in Hmax. unfold nums, on_page in Hmax.
  rewrite in_app_iff, !in_map_iff in Hmax.
  destruct Hmax as [(x & E & Hx)|(x & E & Hx)]; injection E as Ev Ep; subst x pg.
  - exfalso. specialize (H1 v Hx).
    assert (N1 : not_nan 1000%float) by reflexivity.
    assert (N2 : not_nan v999_99) by reflexivity.
    rewrite leb_ltb in Hge, H1 by assumption.
    apply negb_true_iff in Hge, H1.
    pose proof (geb_trans N2 Nv N1 H1 Hge) as F. vm_compute in F. discriminate.
  - exists v. split; [ exact Hfind | ].
    specialize (H2 v Hx).
    assert (N1 : not_nan 1000%float) by reflexivity.
    destruct (compare_cases Nv N1) as [C|[C|C]];
      destruct C as (C1 & C2 & C3 & C4 & C5 & _); congruence.
Qed.

End Selectors.

Lemma v999_99_literal : py_float (of_string "999.99") = Some v999_99.
Proof. vm_compute. reflexivity. Qed.

(* ================================================================== *)
(** * The ten largest *)

Section TopTen.

Variable A : Type.
Variable key : A -> float.

Lemma insert_by_perm (x : A) (l : list A) :
  Permutation (insert_by key x l) (x :: l).
Proof.
  induction l as [|y l IH]; simpl; [ reflexivity | ].
  destruct (key y <? key x)%float; [ | reflexivity ].
  rewrite IH. apply perm_swap.
Qed.

Lemma stable_sort_perm (l : list A) : Permutation (stable_sort key l) l.
Proof.
  induction l as [|x l IH]; simpl; [ reflexivity | ].
  rewrite insert_by_perm. now constructor.
Qed.

Lemma insert_by_ascending (x : A) (l : list A) :
  not_nan (key x) -> keys_ok key l ->
  ascending key l -> ascending key (insert_by key x l).
Proof.
  intros Nx Hok Hs. induction Hs as [|y l Hs IH Hy]; simpl.
  - repeat constructor.
  - inversion Hok as [|? ? Ny Hl]; subst.
    destruct (key y <? key x)%float eqn:E.
    + constructor; [ now apply IH | ].
      rewrite Forall_forall in *. intros z Hz.
      apply (Permutation_in _ (insert_by_perm x l)) in Hz.
      destruct Hz as [Hz|Hz]; [ subst z | now apply Hy ].
      destruct (key x <? key y)%float eqn:F; trivial.
      pose proof (ltb_trans F E) as G. rewrite ltb_irrefl in G. discriminate.
    + constructor; [ now constructor | ].
      constructor; [ exact E | ].
      rewrite Forall_forall in *. intros z Hz.
      apply geb_trans with (key y); trivial; [ now apply Hl | now apply Hy ].
Qed.

Lemma stable_sort_ascending (l : list A) :
  keys_ok key l -> ascending key (stable_sort key l).
Proof.
  induction l as [|x l IH]; intros Hok; simpl; [ constructor | ].
  inversion Hok; subst. apply insert_by_ascending; trivial.
  - apply Permutation_Forall with l; [ | assumption ].
    symmetry. apply stable_sort_perm.
  - now apply IH.
Qed.

Lemma strongly_sorted_snoc (R : A -> A -> Prop) (l : list A) (x : A) :
  StronglySorted R l -> Forall (fun y => R y x) l ->
  StronglySorted R (l ++ [x]).
Proof.
  induction 1 as [|y l Hs IH Hy]; intros Hx; simpl.
  - repeat constructor.
  - inversion Hx; subst. constructor; [ now apply IH | ].
    apply Forall_app. split; [ exact Hy | now repeat constructor ].
Qed.

Lemma strongly_sorted_rev (R : A -> A -> Prop) (l : list A) :
  StronglySorted R l -> StronglySorted (fun a b => R b a) (rev l).
Proof.
  induction 1 as [|x l Hs IH Hx]; simpl; [ constructor | ].
  apply strongly_sorted_snoc; [ exact IH | ].
  now apply Forall_rev.
Qed.


Lemma sorted_reverse_perm (l : list A) : Permutation (sorted_reverse key l) l.
Proof.
  unfold sorted_reverse.
  rewrite <- Permutation_rev, stable_sort_perm, <- Permutation_rev.
  reflexivity.
Qed.

Lemma sorted_reverse_descending (l : list A) :
  keys_ok key l -> descending key (sorted_reverse key l).
Proof.
  intros Hok. unfold sorted_reverse, descending.
  apply (strongly_sorted_rev (R := fun a b => (key b <? key a)%float = false)).
  apply stable_sort_ascending. now apply Forall_rev.
Qed.

(** An item that is smaller than [x] does not have the key of [x]. *)
Lemma smaller_other_key (x y : float) (v : float) :
  (y <? x)%float = true -> (x =? v)%float = true -> (y =? v)%float = false.
Proof.
  intros Hlt Heq. destruct (ltb_not_nan Hlt) as [Ny Nx].
  destruct (y =? v)%float eqn:E; [ exfalso | reflexivity ].
  assert (Nv : not_nan v).
  { apply not_nan_spec. intros F. rewrite eqb_spec, F in Heq.
    unfold SFeqb in Heq. destruct (Prim2SF x); discriminate. }
  destruct (compare_cases Nx Nv) as [C|[C|C]];
    destruct C as (_ & _ & C3 & _ & _ & Cx); try congruence.
  destruct (compare_cases Ny Nv) as [D|[D|D]];
    destruct D as (_ & _ & D3 & _ & _ & Dy); try congruence.
  destruct (compare_cases Ny Nx) as [F|[F|F]];
    destruct F as (F1 & _ & _ & _ & _ & Fyx); try congruence.
  rewrite Cx, Dy in Fyx. now apply lt3_irrefl in Fyx.
Qed.

Lemma insert_by_stable (v : float) (x : A) (l : list A) :
  filter (has_key key v) (insert_by key x l) = filter (has_key key v) (x :: l).
Proof.
  induction l as [|y l IH]; simpl; trivial.
  destruct (key y <? key x)%float eqn:E; trivial.
  simpl. rewrite IH. simpl.
  destruct (has_key key v x) eqn:Hx; trivial.
  unfold has_key in *. rewrite (smaller_other_key E Hx). reflexivity.
Qed.

(** Stability: the items of one key keep the order of the input. *)
Lemma stable_sort_stable (v : float) (l : list A) :
  filter (has_key key v) (stable_sort key l) = filter (has_key key v) l.
Proof.
  induction l as [|x l IH]; simpl; trivial.
  rewrite insert_by_stable. simpl. now rewrite IH.
Qed.

Lemma filter_rev_comm (f : A -> bool) (l : list A) :
  filter f (rev l) = rev (filter f l).
Proof.
  induction l as [|x l IH]; simpl; trivial.
  rewrite filter_app, IH. simpl. destruct (f x); simpl; trivial.
  now rewrite app_nil_r.
Qed.

Lemma sorted_reverse_stable (v : float) (l : list A) :
  filter (has_key key v) (sorted_reverse key l) = filter (has_key key v) l.
Proof.
  unfold sorted_reverse.
  rewrite filter_rev_comm, stable_sort_stable, filter_rev_comm.
  apply rev_involutive.
Qed.




End TopTen.

(** ** One list only meets the promise *)

Section OneSelection.

Variable A : Type.
Variable key : A -> float.

Lemma eqb_not_nan (x y : float) :
  (x =? y)%float = true -> not_nan x /\ not_nan y.
Proof.
  rewrite eqb_spec. unfold SFeqb. intros H.
  split; apply not_nan_spec; intros E; rewrite E in H;
    [ | destruct (Prim2SF x) ]; discriminate.
Qed.


Lemma eqb_sym_num (x y : float) :
  (x =? y)%float = true -> (y =? x)%float = true.
Proof.
  intros H. destruct (eqb_not_nan H) as [Hx Hy].
  rewrite (eqb_ltb Hx Hy) in H. rewrite (eqb_ltb Hy Hx).
  now rewrite andb_comm.
Qed.






End OneSelection.

(** ** The table of the records *)

Section TopTenOfRecords.

Variables A B : Type.
Variable f : A -> B.
Variable key : B -> float.




End TopTenOfRecords.




Lemma top10_example :
  top10_base
    [ (1%float, 1); (3%float, 1); (5%float, 1); (3%float, 2); (2%float, 2);
      (5%float, 3); (9%float, 3); (4%float, 3); (3%float, 4); (8%float, 4);
      (7%float, 5); (6%float, 5) ]
  = [ (9%float, 3); (8%float, 4); (7%float, 5); (6%float, 5); (5%float, 1);
      (5%float, 3); (4%float, 3); (3%float, 1); (3%float, 2); (3%float, 4) ].
Proof. vm_compute. reflexivity. Qed.

(* ================================================================== *)
(** * What the matcher accepts *)

Section Matcher.

Lemma bindings_of_weaken (r r' : regex) (new : captures) :
  (forall n w, bound_by r n w -> bound_by r' n w) ->
  bindings_of r new -> bindings_of r' new.
Proof.
  intros H. unfold bindings_of. apply Forall_impl. intros [n w]. apply H.
Qed.

Lemma firstn_consumed (w s' : text) :
  firstn (List.length (w ++ s') - List.length s') (w ++ s') = w.
Proof.
  rewrite length_app, Nat.add_sub.
  rewrite firstn_app, Nat.sub_diag, firstn_all. simpl. apply app_nil_r.
Qed.

(** A successful run splits the subject into a word of the expression and
    the rest, on which the continuation succeeds with the new captures in
    front of the old ones. *)
Lemma run_sound (r : regex) :
  forall (A : Type) (s : text) (c : captures)
         (k : text -> captures -> option A) (x : A),
    run r s c k = Some x ->
    exists w s' new,
      s = w ++ s' /\ matches r w /\ bindings_of r new
      /\ k s' (new ++ c) = Some x.
Proof.
  induction r as [|p|r1 IH1 r2 IH2|r1 IH1 r2 IH2|r1 IH1|n r1 IH1];
    intros A s c k x H.
  - exists [], s, []. repeat split; trivial; constructor.
  - simpl in H. destruct s as [|a s]; [ discriminate | ].
    destruct (p a) eqn:E; [ | discriminate ].
    exists [a], s, []. repeat split; trivial; now constructor.
  - simpl in H. apply IH1 in H.
    destruct H as (w1 & s1 & new1 & E1 & M1 & B1 & H).
    apply IH2 in H. destruct H as (w2 & s2 & new2 & E2 & M2 & B2 & H).
    exists (w1 ++ w2), s2, (new2 ++ new1). repeat split.
    + subst. now rewrite app_assoc.
    + now constructor.
    + apply Forall_app. split.
      * apply bindings_of_weaken with r2; [ simpl; tauto | exact B2 ].
      * apply bindings_of_weaken with r1; [ simpl; tauto | exact B1 ].
    + now rewrite <- app_assoc.
  - simpl in H. destruct (run r1 s c k) as [y|] eqn:E.
    + injection H as ->. apply IH1 in E.
      destruct E as (w & s' & new & E1 & M1 & B1 & H).
      exists w, s', new. repeat split; trivial.
      * now apply MAltL.
      * apply bindings_of_weaken with r1; [ simpl; tauto | exact B1 ].
    + apply IH2 in H. destruct H as (w & s' & new & E1 & M1 & B1 & H).
      exists w, s', new. repeat split; trivial.
      * now apply MAltR.
      * apply bindings_of_weaken with r2; [ simpl; tauto | exact B1 ].
  - cbn [run] in H. revert H. generalize (List.length s) as n.
    intros n. revert s c. induction n as [|n IHn]; intros s c H.
    + exists [], s, []. repeat split; trivial; constructor.
    + cbn [rounds] in H.
      match type of H with
      | match ?e with _ => _ end = _ => destruct e as [y|] eqn:E
      end.
      * injection H as ->. apply IH1 in E.
        destruct E as (w1 & s1 & new1 & E1 & M1 & B1 & H).
        destruct (List.length s1 <? List.length s); [ | discriminate ].
        apply IHn in H. destruct H as (w2 & s2 & new2 & E2 & M2 & B2 & H).
        exists (w1 ++ w2), s2, (new2 ++ new1). repeat split.
        -- subst. now rewrite app_assoc.
        -- now constructor.
        -- apply Forall_app. split; [ exact B2 | exact B1 ].
        -- now rewrite <- app_assoc.
      * exists [], s, []. repeat split; trivial; constructor.
  - simpl in H. apply IH1 in H.
    destruct H as (w & s' & new & E & M & B & H).
    exists w, s', ((n, w) :: new). repeat split; trivial.
    + now constructor.
    + constructor; [ simpl; now left | ].
      apply bindings_of_weaken with r1; [ simpl; tauto | exact B ].
    + subst s. rewrite firstn_consumed in H. exact H.
Qed.

Lemma run_none (r : regex) (A : Type) (s : text) (c : captures)
      (k : text -> captures -> option A) :
  (forall s' c', k s' c' = None) -> run r s c k = None.
Proof.
  intros Hk. destruct (run r s c k) as [x|] eqn:E; trivial.
  apply run_sound in E. destruct E as (w & s' & new & _ & _ & _ & E).
  rewrite Hk in E. discriminate.
Qed.

(** The result depends on the continuation through its values only. *)
Lemma run_ext (r : regex) :
  forall (A : Type) (s : text) (c : captures)
         (k1 k2 : text -> captures -> option A),
    (forall s' c', k1 s' c' = k2 s' c') -> run r s c k1 = run r s c k2.
Proof.
  induction r as [|p|r1 IH1 r2 IH2|r1 IH1 r2 IH2|r1 IH1|n r1 IH1];
    intros A s c k1 k2 Hk; cbn [run].
  - apply Hk.
  - destruct s as [|a s]; trivial. destruct (p a); trivial.
  - apply IH1. intros s' c'. now apply IH2.
  - rewrite (IH1 A s c k1 k2 Hk), (IH2 A s c k1 k2 Hk). reflexivity.
  - generalize (List.length s) as n. intros n. revert s c.
    induction n as [|n IHn]; intros s c; cbn [rounds]; [ apply Hk | ].
    rewrite Hk.
    rewrite (IH1 A s c _
               (fun s' c' =>
                  if List.length s' <? List.length s
                  then rounds (run r1) k2 n s' c' else None)); trivial.
    intros s' c'. destruct (_ <? _); trivial.
  - apply IH1. intros s' c'. apply Hk.
Qed.

(** The number of rounds allowed is never what stops a star: any bound
    from the length of the subject on gives the same result. *)
Lemma rounds_enough (r : regex) (A : Type) (k : text -> captures -> option A) :
  forall (n m : nat) (s : text) (c : captures),
    List.length s <= n -> List.length s <= m ->
    rounds (run r) k n s c = rounds (run r) k m s c.
Proof.
  assert (Hnil : forall m c, rounds (run r) k m [] c = k [] c).
  { intros [|m] c; cbn [rounds]; trivial.
    rewrite run_none; trivial. }
  induction n as [|n IH]; intros m s c Hn Hm.
  - destruct s; [ | simpl in Hn; lia ]. now rewrite !Hnil.
  - destruct m as [|m].
    + destruct s; [ | simpl in Hm; lia ]. now rewrite !Hnil.
    + cbn [rounds].
      rewrite (@run_ext r A s c _
                 (fun s' c' =>
                    if List.length s' <? List.length s
                    then rounds (run r) k m s' c' else None)); trivial.
      intros s' c'. destruct (Nat.ltb_spec (List.length s') (List.length s));
        trivial.
      apply IH; lia.
Qed.

(** A star is a loop: it runs its body, goes on from where a round that
    consumed something ended, and stops when no round succeeds. *)
Lemma star_unfold (r : regex) (A : Type) (s : text) (c : captures)
      (k : text -> captures -> option A) :
  run (Star r) s c k =
    match run r s c
            (fun s' c' =>
               if List.length s' <? List.length s
               then run (Star r) s' c' k else None) with
    | Some x => Some x
    | None => k s c
    end.
Proof.
  cbn [run]. destruct s as [|a s].
  - cbn [rounds List.length]. rewrite run_none; trivial.
  - cbn [rounds List.length].
    rewrite (@run_ext r A (a :: s) c _
               (fun s' c' =>
                  if List.length s' <? S (List.length s)
                  then rounds (run r) k (List.length s') s' c' else None));
      trivial.
    intros s' c'.
    destruct (Nat.ltb_spec (List.length s') (S (List.length s))); trivial.
    apply rounds_enough; lia.
Qed.

End Matcher.

(* ================================================================== *)
(** * The words of the number pattern convert *)

Section NumberWords.

Lemma matches_chr_inv (p : ascii -> bool) (w : text) :
  matches (Chr p) w -> exists a, w = [a] /\ p a = true.
Proof. inversion 1; subst. eauto. Qed.

Lemma matches_seq_inv (r1 r2 : regex) (w : text) :
  matches (Seq r1 r2) w ->
  exists w1 w2, w = w1 ++ w2 /\ matches r1 w1 /\ matches r2 w2.
Proof. inversion 1; subst. eauto. Qed.

Lemma matches_alt_inv (r1 r2 : regex) (w : text) :
  matches (Alt r1 r2) w -> matches r1 w \/ matches r2 w.
Proof. inversion 1; subst; tauto. Qed.

(** Induction on the rounds of a star. *)
Lemma matches_star_rounds (P : text -> Prop) (r : regex) (w : text) :
  P [] ->
  (forall w1 w2, matches r w1 -> P w2 -> P (w1 ++ w2)) ->
  matches (Star r) w -> P w.
Proof.
  intros Hnil Hcons H. remember (Star r) as r0 eqn:E.
  induction H; try discriminate; [ exact Hnil | ].
  injection E as ->. apply Hcons; [ assumption | now apply IHmatches2 ].
Qed.

Lemma matches_star_chr (p : ascii -> bool) (w : text) :
  matches (Star (Chr p)) w -> Forall (fun c => p c = true) w.
Proof.
  apply matches_star_rounds; [ constructor | ].
  intros w1 w2 H IH. apply Forall_app. split; [ | exact IH ].
  apply matches_chr_inv in H. destruct H as (a & -> & Ha). now repeat constructor.
Qed.

Lemma matches_plus_chr (p : ascii -> bool) (w : text) :
  matches (Plus (Chr p)) w -> w <> [] /\ Forall (fun c => p c = true) w.
Proof.
  unfold Plus. inversion 1 as [| |r1 r2 w1 w2 H1 H2| | | | |]; subst.
  apply matches_chr_inv in H1. destruct H1 as (a & -> & Ha).
  apply matches_star_chr in H2. split; [ discriminate | ].
  now constructor.
Qed.

Lemma matches_times_chr (p : ascii -> bool) (n : nat) (w : text) :
  matches (Times n (Chr p)) w -> Forall (fun c => p c = true) w.
Proof.
  revert w. induction n as [|n IH]; intros w H; simpl in H.
  - inversion H; subst. constructor.
  - inversion H as [| |r1 r2 w1 w2 H1 H2| | | | |]; subst.
    apply matches_chr_inv in H1. destruct H1 as (a & -> & Ha).
    constructor; [ exact Ha | now apply IH ].
Qed.

Lemma matches_opt (r : regex) (w : text) :
  matches (Opt r) w -> matches r w \/ w = [].
Proof.
  unfold Opt. inversion 1 as [| | |r1 r2 w' H1|r1 r2 w' H1| | |]; subst.
  - now left.
  - inversion H1; subst. now right.
Qed.

Lemma matches_upto_chr (p : ascii -> bool) (n : nat) (w : text) :
  matches (UpTo n (Chr p)) w -> Forall (fun c => p c = true) w.
Proof.
  revert w. induction n as [|n IH]; intros w H; simpl in H.
  - inversion H; subst. constructor.
  - apply matches_opt in H. destruct H as [H| ->]; [ | constructor ].
    inversion H as [| |r1 r2 w1 w2 H1 H2| | | | |]; subst.
    apply matches_chr_inv in H1. destruct H1 as (a & -> & Ha).
    constructor; [ exact Ha | now apply IH ].
Qed.

Lemma matches_lit (t w : text) : matches (Lit t) w -> w = t.
Proof.
  revert w. induction t as [|c t IH]; intros w H; simpl in H.
  - now inversion H.
  - inversion H as [| |r1 r2 w1 w2 H1 H2| | | | |]; subst.
    apply matches_chr_inv in H1. destruct H1 as (a & -> & Ha).
    apply Ascii.eqb_eq in Ha. subst a. simpl. f_equal. now apply IH.
Qed.

Lemma digit_not_comma (c : ascii) : is_digit c = true -> is_char 44 c = false.
Proof.
  unfold is_digit, between, is_char. rewrite andb_true_iff, !Nat.leb_le.
  intros [H1 H2]. apply Nat.eqb_neq. lia.
Qed.

Lemma digit_not_sign (c : ascii) :
  is_digit c = true -> is_char 45 c = false /\ is_char 43 c = false.
Proof.
  unfold is_digit, between, is_char. rewrite andb_true_iff, !Nat.leb_le.
  intros [H1 H2]. split; apply Nat.eqb_neq; lia.
Qed.

Lemma remove_commas_digits (w : text) : all_digits w -> remove_commas w = w.
Proof.
  induction 1 as [|c w Hc Hw IH]; simpl; trivial.
  rewrite (digit_not_comma _ Hc). simpl. now rewrite IH.
Qed.

Lemma remove_commas_app (u w : text) :
  remove_commas (u ++ w) = remove_commas u ++ remove_commas w.
Proof. apply filter_app. Qed.

(** The comma groups leave digits only. *)
Lemma comma_groups_digits (w : text) :
  matches (Star (Seq (Lit (of_string ",")) (Times 3 digit))) w ->
  all_digits (remove_commas w).
Proof.
  apply (@matches_star_rounds (fun u => all_digits (remove_commas u)));
    [ constructor | ].
  intros w1 w2 H IH. rewrite remove_commas_app. apply Forall_app.
  split; [ | exact IH ].
  apply matches_seq_inv in H. destruct H as (u1 & u2 & -> & H1 & H2).
  apply matches_lit in H1. subst u1.
  apply matches_times_chr in H2.
  rewrite remove_commas_app. simpl. now rewrite remove_commas_digits.
Qed.

Lemma fraction_words (w : text) :
  matches fraction w -> fraction_shape w /\ remove_commas w = w.
Proof.
  intros H. apply matches_opt in H. destruct H as [H| ->].
  - apply matches_seq_inv in H. destruct H as (w1 & w2 & -> & H1 & H2).
    apply matches_lit in H1. subst w1.
    apply matches_plus_chr in H2. destruct H2 as [Hne Hd].
    split.
    + right. exists w2. repeat split; trivial.
    + rewrite remove_commas_app, (remove_commas_digits Hd). reflexivity.
  - split; [ now left | reflexivity ].
Qed.

Lemma sign_words (w : text) :
  matches (Opt (one_of (of_string "-+"))) w ->
  sign_shape w /\ remove_commas w = w.
Proof.
  intros H. apply matches_opt in H. destruct H as [H| ->].
  - apply matches_chr_inv in H. destruct H as (a & -> & Ha).
    simpl in Ha. rewrite orb_false_r in Ha. apply orb_true_iff in Ha.
    destruct Ha as [Ha|Ha]; apply Ascii.eqb_eq in Ha; subst a;
      (split; [ unfold sign_shape; simpl; tauto | reflexivity ]).
  - split; [ now left | reflexivity ].
Qed.

(** Without its commas, a word of the number pattern is a decimal. *)
Lemma number_words (w : text) :
  matches number_pattern w -> decimal_shape (remove_commas w).
Proof.
  unfold number_pattern. intros H.
  apply matches_alt_inv in H. destruct H as [H|H].
  - apply matches_seq_inv in H. destruct H as (sg & w1 & -> & Hsg & H).
    apply matches_seq_inv in H. destruct H as (ip & w2 & -> & Hip & H).
    apply matches_seq_inv in H. destruct H as (cg & fr & -> & Hcg & Hfr).
    apply sign_words in Hsg. destruct Hsg as [Hsg Esg].
    apply fraction_words in Hfr. destruct Hfr as [Hfr Efr].
    apply comma_groups_digits in Hcg.
    unfold Repeat in Hip.
    apply matches_seq_inv in Hip. destruct Hip as (d1 & d2 & -> & Hd1 & Hd2).
    pose proof (@matches_times_chr is_digit 1 d1 Hd1) as D1.
    apply (@matches_upto_chr is_digit 2 d2) in Hd2.
    assert (Hne : d1 <> []).
    { simpl in Hd1. apply matches_seq_inv in Hd1.
      destruct Hd1 as (a & e & -> & Ha & _).
      apply matches_chr_inv in Ha. destruct Ha as (a' & -> & _). discriminate. }
    exists sg, ((d1 ++ d2) ++ remove_commas cg), fr.
    rewrite !remove_commas_app, Esg, Efr.
    rewrite (remove_commas_digits D1), (remove_commas_digits Hd2).
    repeat split; trivial.
    + now rewrite <- !app_assoc.
    + destruct d1; [ congruence | discriminate ].
    + repeat (apply Forall_app; split); trivial.
  - apply matches_seq_inv in H. destruct H as (ds & fr & -> & Hds & Hfr).
    apply matches_plus_chr in Hds. destruct Hds as [Hne Hd].
    apply fraction_words in Hfr. destruct Hfr as [Hfr Efr].
    exists [], ds, fr. rewrite remove_commas_app, Efr, remove_commas_digits by trivial.
    repeat split; trivial. now left.
Qed.

Lemma span_digits_app (ds rest : text) :
  all_digits ds ->
  (rest = [] \/ exists c rest', rest = c :: rest' /\ is_digit c = false) ->
  span_digits (ds ++ rest) = (ds, rest).
Proof.
  intros Hd Hrest. induction Hd as [|c ds Hc Hd IH]; simpl.
  - destruct Hrest as [->|(c & rest' & -> & Hc)]; simpl; trivial.
    now rewrite Hc.
  - now rewrite Hc, IH.
Qed.

(** [float] accepts every decimal. *)
Lemma py_float_decimal (u : text) :
  decimal_shape u -> exists v, py_float u = Some v.
Proof.
  intros (sg & ds & f & -> & Hsg & Hne & Hd & Hf).
  assert (Hspan : span_digits (ds ++ f) = (ds, f)).
  { apply span_digits_app; trivial.
    destruct Hf as [->|(fs & -> & _)]; [ now left | right ].
    eexists _, _. split; reflexivity. }
  assert (Hbody : exists neg, split_sign (sg ++ ds ++ f) = (neg, ds ++ f)).
  { destruct Hsg as [->|[->| ->]]; simpl; eauto.
    destruct ds as [|d ds]; [ congruence | ]. inversion Hd; subst.
    simpl. destruct (digit_not_sign d) as [-> ->]; eauto. }
  destruct Hbody as [neg Hbody]. unfold py_float. rewrite Hbody, Hspan.
  destruct Hf as [->|(fs & -> & Hfs & Hdfs)].
  - destruct ds; [ congruence | eauto ].
  - simpl.
    assert (Hfp : span_digits fs = (fs, [])).
    { rewrite <- (app_nil_r fs) at 1. apply span_digits_app; tauto. }
    rewrite Hfp. destruct ds; [ congruence | simpl; eauto ].
Qed.

Lemma number_word_converts (w : text) :
  matches number_pattern w -> exists v, py_float (remove_commas w) = Some v.
Proof. intros H. apply py_float_decimal. now apply number_words. Qed.

End NumberWords.

(* ================================================================== *)
(** * The matches of the two extractors *)

Section Matches.

Lemma match_here_sound (r : regex) (s : text) (len : nat) (c : captures) :
  match_here r s = Some (len, c) ->
  exists w s',
    s = w ++ s' /\ matches r w /\ firstn len s = w /\ len = List.length w
    /\ bindings_of r c.
Proof.
  unfold match_here. intros H. apply run_sound in H.
  destruct H as (w & s' & new & E & M & B & H).
  injection H as Hlen Hc. rewrite app_nil_r in Hc. subst c s.
  exists w, s'. repeat split; trivial.
  - rewrite <- Hlen. apply firstn_consumed.
  - rewrite <- Hlen, length_app. lia.
Qed.

(** Every match that [finditer] lists is a match of the pattern at the head
    of some suffix of the subject. *)
Lemma finditer_from_match (r : regex) (s : text) (pos skip : nat) (m : re_match) :
  In m (finditer_from r s pos skip) ->
  exists s' len,
    match_here r s' = Some (len, m_groups m) /\ m_text m = firstn len s'.
Proof.
  revert pos skip. induction s as [|a s IH]; intros pos skip Hin; simpl in Hin.
  - destruct skip; [ | destruct Hin ].
    destruct (match_here r []) as [[len c]|] eqn:E; [ | destruct Hin ].
    destruct Hin as [<-|[]]. exists [], len. simpl. split; trivial.
    now rewrite firstn_nil.
  - destruct skip as [|skip]; [ | now apply IH in Hin ].
    destruct (match_here r (a :: s)) as [[len c]|] eqn:E;
      [ | now apply IH in Hin ].
    destruct Hin as [<-|Hin]; [ | now apply IH in Hin ].
    exists (a :: s), len. simpl. split; trivial.
Qed.

Lemma finditer_from_start (r : regex) (s : text) (pos skip : nat) :
  Forall (fun m => pos <= m_start m) (finditer_from r s pos skip).
Proof.
  revert pos skip. induction s as [|a s IH]; intros pos skip; simpl.
  - destruct skip; [ | constructor ].
    destruct (match_here r []) as [[len c]|]; repeat constructor.
  - assert (H : Forall (fun m => pos <= m_start m)
                  (finditer_from r s (S pos) (pred skip))
                /\ forall k, Forall (fun m => pos <= m_start m)
                               (finditer_from r s (S pos) k)).
    { split; [ | intros k ];
        (eapply Forall_impl; [ | apply IH ]; simpl; intros; lia). }
    destruct H as [_ H].
    destruct skip as [|skip]; [ | apply H ].
    destruct (match_here r (a :: s)) as [[len c]|]; [ | apply H ].
    constructor; [ simpl; lia | apply H ].
Qed.

(** The matches start at increasing offsets. *)
Lemma finditer_from_increasing (r : regex) (s : text) (pos skip : nat) :
  StronglySorted lt (map m_start (finditer_from r s pos skip)).
Proof.
  revert pos skip. induction s as [|a s IH]; intros pos skip; simpl.
  - destruct skip; [ | constructor ].
    destruct (match_here r []) as [[len c]|]; repeat constructor.
  - destruct skip as [|skip]; [ | apply IH ].
    destruct (match_here r (a :: s)) as [[len c]|]; [ | apply IH ].
    simpl. constructor; [ apply IH | ].
    rewrite Forall_map.
    eapply Forall_impl; [ | apply finditer_from_start ]. simpl. intros; lia.
Qed.

Lemma number_pattern_no_group (n : nat) (w : text) :
  ~ bound_by number_pattern n w.
Proof. cbn. tauto. Qed.

Lemma group_skip (n : nat) (new c : captures) :
  Forall (fun b => fst b <> n) new -> group n (new ++ c) = group n c.
Proof.
  induction 1 as [|[m t] new Hm Hnew IH]; simpl; trivial.
  simpl in Hm. destruct (Nat.eqb_spec m n); [ congruence | exact IH ].
Qed.

(** Group 1 of a match of the context pattern is a word of the number
    pattern, and the whole match starts with it. *)
Lemma context_match_group1 (s : text) (len : nat) (c : captures) :
  match_here context_pattern s = Some (len, c) ->
  exists w, group 1 c = Some w /\ matches number_pattern w.
Proof.
  unfold match_here, context_pattern. cbn [run]. intros H.
  apply run_sound in H. destruct H as (w & s1 & new1 & E1 & M1 & B1 & H).
  assert (new1 = []).
  { destruct new1 as [|[n u] new1]; trivial. inversion B1; subst.
    now apply number_pattern_no_group in H2. }
  subst new1. rewrite E1, firstn_consumed in H. simpl app in H.
  apply (@run_sound (Seq (Star space) (Opt (Group 2 (Plus word_char))))) in H.
  destruct H as (w2 & s2 & new2 & E2 & M2 & B2 & H).
  injection H as _ Hc. exists w. split; [ | exact M1 ].
  rewrite <- Hc, group_skip; [ reflexivity | ].
  eapply Forall_impl; [ | exact B2 ]. intros [n u]. cbn. intros F.
  destruct F as [[]|[[[<- _]|[[]|[]]]|[]]]. discriminate.
Qed.

Lemma context_match_converts (t : text) (m : re_match) :
  In m (context_matches t) ->
  exists w v,
    group 1 (m_groups m) = Some w /\ matches number_pattern w
    /\ py_float (remove_commas w) = Some v.
Proof.
  unfold context_matches, finditer. intros Hin.
  apply finditer_from_match in Hin. destruct Hin as (s' & len & H & _).
  apply context_match_group1 in H. destruct H as (w & Hg & Hw).
  destruct (number_word_converts Hw) as [v Hv]. eauto.
Qed.

Lemma findall_number_words (t : text) :
  Forall (matches number_pattern) (findall number_pattern t).
Proof.
  unfold findall, finditer. rewrite Forall_map. apply Forall_forall.
  intros m Hin. apply finditer_from_match in Hin.
  destruct Hin as (s' & len & H & Ht). apply match_here_sound in H.
  destruct H as (w & s'' & _ & M & F & _). now rewrite Ht, F.
Qed.

Lemma convert_all_ok (nums : list text) :
  Forall (matches number_pattern) nums ->
  exists vals,
    convert_all nums = Ok vals
    /\ Forall2 (fun w v => py_float (remove_commas w) = Some v) nums vals.
Proof.
  induction 1 as [|w nums Hw Hnums IH]; simpl.
  - exists []. split; [ reflexivity | constructor ].
  - destruct (number_word_converts Hw) as [v Hv].
    destruct IH as (vals & Hc & Hall). rewrite Hv, Hc.
    exists (v :: vals). split; [ reflexivity | now constructor ].
Qed.

End Matches.

(* ================================================================== *)
(** * The loop of the contextual extractor *)

Section Scan.

Variable t : text.

Lemma update_scale_numbers (pos : nat) (st : scan_state) :
  numbers (update_scale t pos st) = numbers st.
Proof.
  unfold update_scale. destruct (table_boundaries st); trivial.
  destruct (_ <? _); reflexivity.
Qed.

Lemma scan_step_fields (st : scan_state) (m : re_match) (w : text) (v : float) :
  converts m w v ->
  let st' := update_scale t (m_start m) st in
  table_boundaries (scan_step t st m) = table_boundaries st'
  /\ current_scale (scan_step t st m) = current_scale st'
  /\ last_boundary (scan_step t st m) = last_boundary st'
  /\ numbers (scan_step t st m) =
       numbers st ++
         [ {| original := v;
              scaled := apply_scale_word (group 2 (m_groups m))
                          (v * current_scale st')%float;
              scale_word := word_or_na (group 2 (m_groups m));
              position := m_start m |} ].
Proof.
  intros [Hg Hv]. unfold scan_step. rewrite Hg, Hv. simpl.
  rewrite update_scale_numbers. repeat split.
Qed.

Lemma update_scale_cases (pos : nat) (st : scan_state) :
  (table_boundaries st = [] /\ keeps st (update_scale t pos st))
  \/ (exists b rest, table_boundaries st = b :: rest /\ pos <= b
                     /\ keeps st (update_scale t pos st))
  \/ (exists b, b < pos /\ consumes t b pos st (update_scale t pos st)).
Proof.
  unfold update_scale, keeps, consumes.
  destruct (table_boundaries st) as [|b rest] eqn:E.
  - left. rewrite E. repeat split.
  - right. destruct (Nat.ltb_spec b pos).
    + right. exists b. simpl. repeat split; trivial.
    + left. exists b, rest. rewrite E. repeat split; trivial.
Qed.

Lemma scan_step_cases (st : scan_state) (m : re_match) (w : text) (v : float) :
  converts m w v ->
  (table_boundaries st = [] /\ keeps st (scan_step t st m))
  \/ (exists b rest, table_boundaries st = b :: rest /\ m_start m <= b
                     /\ keeps st (scan_step t st m))
  \/ (exists b, b < m_start m /\ consumes t b (m_start m) st (scan_step t st m)).
Proof.
  intros Hc. destruct (scan_step_fields st Hc) as (Hb & Hs & Hl & _).
  unfold keeps, consumes. rewrite Hb, Hs, Hl.
  apply update_scale_cases.
Qed.

Lemma state_after_succ (k : nat) (m : re_match) :
  nth_error (context_matches t) k = Some m ->
  state_after t (S k) = scan_step t (state_after t k) m.
Proof.
  intros H. unfold state_after, scan.
  assert (E : firstn (S k) (context_matches t)
              = firstn k (context_matches t) ++ [m]).
  { revert k H. induction (context_matches t) as [|x l IH]; intros [|k] H;
      simpl in *; try discriminate.
    - now injection H as ->.
    - f_equal. now apply IH. }
  rewrite E, fold_left_app. reflexivity.
Qed.

Lemma nth_error_converts (k : nat) (m : re_match) :
  nth_error (context_matches t) k = Some m -> exists w v, converts m w v.
Proof.
  intros H. apply nth_error_In in H. apply context_match_converts in H.
  destruct H as (w & v & Hg & _ & Hv). exists w, v. now split.
Qed.

(** The pending boundaries are what remains of the detected ones after the
    first [c], and no more than one is gone per match. *)
Lemma pending_suffix (k : nat) :
  k <= List.length (context_matches t) ->
  exists c,
    c <= k
    /\ table_boundaries (state_after t k) = skipn c (detect_table_boundaries t).
Proof.
  induction k as [|k IH]; intros Hk.
  - exists 0. split; trivial.
  - destruct IH as (c & Hc & Hp); [ lia | ].
    destruct (nth_error (context_matches t) k) as [m|] eqn:Hm;
      [ | apply nth_error_None in Hm; lia ].
    rewrite (state_after_succ _ Hm).
    destruct (nth_error_converts _ Hm) as (w & v & Hcv).
    destruct (scan_step_cases (state_after t k) Hcv)
      as [[_ (Hb & _)]|[(b & rest & _ & _ & Hb & _)|(b & _ & Hb & _)]].
    + exists c. split; [ lia | congruence ].
    + exists c. split; [ lia | congruence ].
    + exists (S c). split; [ lia | ].
      rewrite Hp in Hb. clear - Hb.
      revert c Hb. induction (detect_table_boundaries t) as [|x l IHl];
        intros [|c] Hb; simpl in *; try discriminate.
      * now injection Hb.
      * now apply IHl.
Qed.

End Scan.

Section Draining.

Variable t : text.

Lemma skipn_cons_nth (A : Type) (l : list A) (c : nat) (b : A) (rest : list A) :
  skipn c l = b :: rest -> nth_error l c = Some b /\ rest = skipn (S c) l.
Proof.
  revert c. induction l as [|x l IH]; intros [|c] H; simpl in *;
    try discriminate.
  - injection H as -> ->. now split.
  - now apply IH.
Qed.

Lemma skipn_nil_nth (A : Type) (l : list A) (c : nat) :
  skipn c l = [] -> nth_error l c = None.
Proof.
  revert c. induction l as [|x l IH]; intros [|c] H; simpl in *;
    try discriminate; trivial.
  now apply IH.
Qed.

Lemma pending_shrinks (k : nat) (m : re_match) :
  nth_error (context_matches t) k = Some m ->
  List.length (table_boundaries (state_after t (S k)))
  <= List.length (table_boundaries (state_after t k)).
Proof.
  intros Hm. rewrite (state_after_succ _ _ Hm).
  destruct (nth_error_converts _ _ Hm) as (w & v & Hcv).
  destruct (scan_step_cases t (state_after t k) Hcv)
    as [[_ (Hb & _)]|[(b & rest & _ & _ & Hb & _)|(b & _ & Hb & _)]];
    rewrite Hb; simpl; lia.
Qed.

Lemma consumed_monotone (j k : nat) :
  j <= k -> k <= List.length (context_matches t) -> consumed t j <= consumed t k.
Proof.
  induction 1 as [|k Hjk IH]; intros Hk; [ lia | ].
  destruct (nth_error (context_matches t) k) as [m|] eqn:Hm;
    [ | apply nth_error_None in Hm; lia ].
  pose proof (pending_shrinks _ Hm). specialize (IH ltac:(lia)).
  unfold consumed in *. lia.
Qed.

Lemma round_holds (k : nat) (m : re_match) :
  nth_error (context_matches t) k = Some m -> round_spec t k m.
Proof.
  intros Hm. unfold round_spec.
  assert (Hk : k <= List.length (context_matches t)).
  { apply Nat.lt_le_incl. apply nth_error_Some. congruence. }
  destruct (pending_suffix t Hk) as (c & Hc & Hp).
  exists c. split; [ exact Hc | ]. split; [ exact Hp | ].
  rewrite (state_after_succ _ _ Hm).
  destruct (nth_error_converts _ _ Hm) as (w & v & Hcv).
  destruct (scan_step_cases t (state_after t k) Hcv)
    as [[Hnil Hkeep]|[(b & rest & Hb & Hle & Hkeep)|(b & Hlt & Hb & Hs & Hl)]].
  - right. split; [ | exact Hkeep ].
    rewrite Hp in Hnil. apply skipn_nil_nth in Hnil. congruence.
  - right. split; [ | exact Hkeep ].
    rewrite Hp in Hb. apply skipn_cons_nth in Hb. destruct Hb as [Hb _].
    intros b' Hb'. congruence.
  - left. exists b. rewrite Hp in Hb. apply skipn_cons_nth in Hb.
    destruct Hb as [Hb Hrest]. repeat split; trivial.
Qed.

End Draining.

Lemma two_headings_run :
  detect_table_boundaries two_headings_text = [0; 14]
  /\ map m_start (context_matches two_headings_text) = [27; 36]
  /\ map (consumed two_headings_text) [0; 1; 2] = [0; 1; 2]
  /\ table_boundaries (state_after two_headings_text 1) = [14].
Proof. repeat split; vm_compute; reflexivity. Qed.

Section NeverRaises.

Variable t : text.

Lemma scan_records (ms : list re_match) (st : scan_state) :
  Forall (fun m => exists w v, converts m w v) ms ->
  exists recs,
    numbers (fold_left (scan_step t) ms st) = numbers st ++ recs
    /\ Forall2 record_of_match ms recs.
Proof.
  intros H. revert st. induction H as [|m ms (w & v & Hc) Hms IH]; intros st.
  - exists []. simpl. rewrite app_nil_r. split; [ reflexivity | constructor ].
  - simpl. destruct (IH (scan_step t st m)) as (recs & Hn & Hall).
    destruct (scan_step_fields t st Hc) as (_ & _ & _ & Hnum).
    rewrite Hnum, <- app_assoc in Hn. simpl in Hn.
    eexists. split; [ exact Hn | ].
    constructor; [ | exact Hall ]. exists w. now split.
Qed.

Lemma context_records :
  Forall2 record_of_match (context_matches t) (extract_numbers_with_context t).
Proof.
  unfold extract_numbers_with_context, scan.
  destruct (@scan_records (context_matches t) (initial_state t))
    as (recs & Hn & Hall).
  - apply Forall_forall. intros m Hin.
    destruct (context_match_converts _ _ Hin) as (w & v & Hg & _ & Hv).
    exists w, v. now split.
  - rewrite Hn. exact Hall.
Qed.

Lemma extract_all_numbers_ok :
  exists vals,
    extract_all_numbers t = Ok vals
    /\ Forall2 (fun w v => py_float (remove_commas w) = Some v)
               (findall number_pattern t) vals.
Proof. apply convert_all_ok. apply findall_number_words. Qed.

Lemma scan_step_skips (st : scan_state) (m : re_match) :
  (forall w, group 1 (m_groups m) = Some w ->
             py_float (remove_commas w) = None) ->
  scan_step t st m = st.
Proof.
  intros H. unfold scan_step. destruct (group 1 (m_groups m)) as [w|]; trivial.
  now rewrite (H w).
Qed.

End NeverRaises.

(* ================================================================== *)
(** * The page loop *)

Section Pages.

Lemma dict_get_set_same (V : Type) (d : dict V) (key : nat) (v : V) :
  dict_get (dict_set d key v) key = Some v.
Proof.
  induction d as [|[k w] d IH]; simpl.
  - now rewrite Nat.eqb_refl.
  - destruct (Nat.eqb_spec k key) as [E|E]; simpl.
    + subst. now rewrite Nat.eqb_refl.
    + destruct (Nat.eqb_spec k key); [ congruence | exact IH ].
Qed.

Lemma dict_get_set_other (V : Type) (d : dict V) (key p : nat) (v : V) :
  key <> p -> dict_get (dict_set d key v) p = dict_get d p.
Proof.
  intros Hne. induction d as [|[k w] d IH]; simpl.
  - destruct (Nat.eqb_spec key p); [ congruence | reflexivity ].
  - destruct (Nat.eqb_spec k key) as [E|E]; simpl.
    + subst k. destruct (Nat.eqb_spec key p); [ congruence | reflexivity ].
    + now rewrite IH.
Qed.

Lemma dict_set_in (V : Type) (d : dict V) (key : nat) (v : V) (e : nat * V) :
  In e (dict_set d key v) -> e = (key, v) \/ In e d.
Proof.
  induction d as [|[k w] d IH]; simpl.
  - intros [H|[]]. left. now symmetry.
  - destruct (Nat.eqb_spec k key) as [E|E]; simpl.
    + subst. intros [H|H]; [ left; now symmetry | right; now right ].
    + intros [H|H]; [ right; now left | ].
      destruct (IH H); [ now left | right; now right ].
Qed.

Lemma process_page_ok (p : nat) (t : text) (base : list (float * nat))
      (nlp : nlp_dict) :
  exists vals,
    extract_all_numbers t = Ok vals
    /\ process_page p t (base, nlp)
       = Ok (base ++ on_page p vals,
             match extract_numbers_with_context t with
             | [] => nlp
             | _ :: _ => dict_set nlp p (extract_numbers_with_context t)
             end).
Proof.
  destruct (extract_all_numbers_ok t) as (vals & Hv & _).
  exists vals. split; [ exact Hv | ].
  unfold process_page. rewrite Hv.
  destruct (extract_numbers_with_context t); reflexivity.
Qed.

Lemma process_pages_spec (pages : list text) :
  forall (k : nat) (base : list (float * nat)) (nlp : nlp_dict),
  exists base' nlp',
    process_pages pages k (base, nlp) = Ok (base', nlp')
    /\ (forall x, In x base -> In x base')
    /\ (forall p, p < k \/ k + List.length pages <= p ->
                  dict_get nlp' p = dict_get nlp p)
    /\ (no_empty_page nlp -> no_empty_page nlp')
    /\ (forall n t, nth_error pages n = Some t ->
                    page_held nlp (k + n) t base' nlp').
Proof.
  induction pages as [|t0 pages IH]; intros k base nlp.
  - exists base, nlp. simpl.
    split; [ reflexivity | ]. split; [ trivial | ]. split; [ trivial | ].
    split; [ trivial | ]. intros n t H. destruct n; discriminate.
  - destruct (process_page_ok k t0 base nlp) as (vals & Hvals & Hpage).
    cbn [process_pages]. rewrite Hpage.
    set (nlp1 := match extract_numbers_with_context t0 with
                 | [] => nlp
                 | _ :: _ => dict_set nlp k (extract_numbers_with_context t0)
                 end) in *.
    destruct (IH (S k) (base ++ on_page k vals) nlp1)
      as (base' & nlp' & Hrun & Hbase & Hother & Hne & Hpages).
    assert (Hstep : forall p, p <> k -> dict_get nlp1 p = dict_get nlp p).
    { intros p Hp. unfold nlp1.
      destruct (extract_numbers_with_context t0); trivial.
      apply dict_get_set_other. congruence. }
    exists base', nlp'. split; [ exact Hrun | ].
    split; [ | split; [ | split ] ].
    + intros x Hx. apply Hbase. rewrite in_app_iff. now left.
    + intros p Hp. simpl in Hp.
      rewrite Hother by lia. apply Hstep. lia.
    + intros H0. apply Hne. unfold nlp1.
      destruct (extract_numbers_with_context t0) as [|r rs] eqn:E; trivial.
      intros e He. apply dict_set_in in He. destruct He as [->|He].
      * discriminate.
      * now apply H0.
    + intros [|n] t Hn; simpl in Hn.
      * injection Hn as <-. rewrite Nat.add_0_r.
        unfold page_held. rewrite (Hother k) by lia.
        split; [ | split ].
        -- intros E. unfold nlp1. now rewrite E.
        -- intros E. unfold nlp1.
           destruct (extract_numbers_with_context t0) eqn:E'; [ congruence | ].
           apply dict_get_set_same.
        -- exists vals. split; [ exact Hvals | ].
           intros v Hv. apply Hbase. rewrite in_app_iff. right.
           unfold on_page. now apply (in_map (fun v0 => (v0, k))).
      * destruct (Hpages n t Hn) as (H1 & H2 & H3).
        replace (k + S n) with (S k + n) by lia.
        unfold page_held. split; [ | split; trivial ].
        intros E. rewrite (H1 E). apply Hstep. lia.
Qed.

End Pages.

(** Three pages, the second without a number. *)
Lemma process_pdf_example :
  exists all_numbers nlp_results,
    process_pdf [revenue_text; of_string "no numbers here"; stacking_text]
    = Ok (all_numbers, nlp_results)
    /\ map fst nlp_results = [1; 3]
    /\ all_numbers
       = [ (100%float, 1); (150.5%float, 1);
           (202%float, 3); (4%float, 3); (2%float, 3) ].
Proof. eexists _, _. vm_compute. repeat split. Qed.

(* ================================================================== *)
(** * Extracted values are numbers *)

Section NotNaN.

Local Open Scope Z_scope.

Lemma shr_1_nonneg (mrs : shr_record) :
  0 <= shr_m mrs -> 0 <= shr_m (shr_1 mrs).
Proof.
  destruct mrs as [m r s]. simpl.
  destruct m as [|[p|p|]|p]; simpl; lia.
Qed.

Lemma iter_shr_nonneg (p : positive) (mrs : shr_record) :
  0 <= shr_m mrs -> 0 <= shr_m (iter_pos shr_1 p mrs).
Proof.
  revert mrs. induction p as [p IH|p IH|]; intros mrs H; simpl.
  - apply IH, IH. now apply shr_1_nonneg.
  - now apply IH, IH.
  - now apply shr_1_nonneg.
Qed.

Lemma shr_fexp_nonneg (m e : Z) (l : location) :
  0 <= m -> 0 <= shr_m (fst (shr_fexp prec emax m e l)).
Proof.
  intros H. unfold shr_fexp, shr.
  assert (H0 : 0 <= shr_m (shr_record_of_loc m l)).
  { destruct l as [|[]]; exact H. }
  destruct (fexp prec emax (Zdigits2 m + e) - e); simpl; trivial.
  now apply iter_shr_nonneg.
Qed.

Lemma round_nearest_even_nonneg (m : Z) (l : location) :
  0 <= m -> 0 <= round_nearest_even m l.
Proof.
  intros H. destruct l as [|[]]; simpl; try lia.
  destruct (Z.even m); lia.
Qed.

(** Rounding a mantissa that is not negative gives no NaN. *)
Lemma binary_round_aux_not_nan (s : bool) (m e : Z) (l : location) :
  0 <= m -> binary_round_aux prec emax s m e l <> S754_nan.
Proof.
  intros H. unfold binary_round_aux.
  pose proof (shr_fexp_nonneg e l H) as H1.
  destruct (shr_fexp prec emax m e l) as [mrs' e'].
  simpl in H1.
  pose proof (round_nearest_even_nonneg (loc_of_shr_record mrs') H1) as H2.
  pose proof (shr_fexp_nonneg e' loc_Exact H2) as H3.
  destruct (shr_fexp prec emax _ e' loc_Exact) as [mrs'' e''].
  simpl in H3. destruct (shr_m mrs''); try lia; try discriminate.
  destruct (e'' <=? emax - prec); discriminate.
Qed.

Lemma binary_round_not_nan (s : bool) (m : positive) (e : Z) :
  binary_round prec emax s m e <> S754_nan.
Proof.
  unfold binary_round. destruct (shl_align _ _ _) as [mz ez].
  apply binary_round_aux_not_nan. lia.
Qed.

Lemma SFdiv_finite_not_nan (s1 s2 : bool) (m1 m2 : positive) (e1 e2 : Z) :
  SFdiv prec emax (S754_finite s1 m1 e1) (S754_finite s2 m2 e2) <> S754_nan.
Proof.
  unfold SFdiv, SFdiv_core_binary.
  set (s := e1 - e2 - _).
  set (m' := match s with Z0 => Zpos m1 | Zpos _ => Z.shiftl (Zpos m1) s
                     | Zneg _ => 0 end).
  assert (Hm : 0 <= m').
  { unfold m'. destruct s; try lia. apply Z.shiftl_nonneg. lia. }
  pose proof (Z_div_mod m' (Zpos m2) eq_refl) as Hd.
  destruct (Z.div_eucl m' (Zpos m2)) as [q r].
  apply binary_round_aux_not_nan. nia.
Qed.

Lemma SFmul_scale_not_nan (x : spec_float) (s : bool) (m : positive) (e : Z) :
  x <> S754_nan -> SFmul prec emax x (S754_finite s m e) <> S754_nan.
Proof.
  intros H. destruct x as [sx|sx| |sx mx ex]; simpl; try discriminate;
    try congruence.
  apply binary_round_aux_not_nan. lia.
Qed.

Lemma SF2Prim_not_nan (x : spec_float) : x <> S754_nan -> not_nan (SF2Prim x).
Proof.
  intros H. destruct x as [[]|[]| |s m e]; try reflexivity; try congruence.
  apply not_nan_spec. unfold SF2Prim.
  assert (N : Prim2SF (Z.ldexp (of_uint63 (Uint63.of_Z (Zpos m))) e)
              <> S754_nan).
  { rewrite Z_ldexp_spec, of_uint63_spec.
    destruct (Uint63.to_Z (Uint63.of_Z (Zpos m))) as [|p|p]; simpl.
    - discriminate.
    - pose proof (binary_round_not_nan false p 0) as F.
      destruct (binary_round prec emax false p 0); try congruence;
        try discriminate. simpl. apply binary_round_not_nan.
    - pose proof (binary_round_not_nan true p 0) as F.
      destruct (binary_round prec emax true p 0); try congruence;
        try discriminate. simpl. apply binary_round_not_nan. }
  destruct s; [ | exact N ].
  rewrite opp_spec. destruct (Prim2SF _); simpl; congruence.
Qed.

(** [float] returns no NaN. *)
Lemma py_float_not_nan (u : text) (v : float) :
  py_float u = Some v -> not_nan v.
Proof.
  assert (D : forall neg n k, not_nan (of_decimal neg n k)).
  { intros neg n k. unfold of_decimal.
    destruct n; try (destruct neg; reflexivity).
    apply SF2Prim_not_nan, SFdiv_finite_not_nan. }
  unfold py_float. destruct (split_sign u) as [neg body].
  destruct (span_digits body) as [ip rest].
  destruct rest as [|c rest].
  - destruct ip; [ discriminate | ]. intros E. injection E as <-. apply D.
  - destruct (is_char 46 c); [ | discriminate ].
    destruct (span_digits rest) as [fp rest''].
    destruct rest''; [ | discriminate ].
    destruct (ip ++ fp)%list; [ discriminate | ].
    intros E. injection E as <-. apply D.
Qed.

Lemma resolver_is_scale (t : text) : is_scale (extract_scale_factor t).
Proof.
  rewrite resolver_cases.
  destruct (cue_in thousand t); [ | destruct (cue_in million t);
    [ | destruct (cue_in billion t); [ | destruct (cue_in trillion t) ] ] ];
    eexists _, _, _; vm_compute; reflexivity.
Qed.

Lemma mul_scale_not_nan (x y : float) :
  not_nan x -> is_scale y -> not_nan (x * y)%float.
Proof.
  intros Hx (s & m & e & Hy). apply not_nan_spec. rewrite mul_spec, Hy.
  apply SFmul_scale_not_nan. now apply not_nan_spec.
Qed.

Lemma apply_scale_word_not_nan (w : option text) (x : float) :
  not_nan x -> not_nan (apply_scale_word w x).
Proof.
  intros Hx. unfold apply_scale_word. destruct w as [word|]; trivial.
  destruct (is_keyword word);
    [ apply mul_scale_not_nan; trivial; apply resolver_is_scale | ].
  destruct (_ && _); trivial.
  apply mul_scale_not_nan; trivial; apply resolver_is_scale.
Qed.

End NotNaN.

Section PipelineValues.

Lemma scan_step_values (t : text) (st : scan_state) (m : re_match) :
  is_scale (current_scale st) /\ Forall record_ok (numbers st) ->
  is_scale (current_scale (scan_step t st m))
  /\ Forall record_ok (numbers (scan_step t st m)).
Proof.
  intros [Hs Hn]. unfold scan_step.
  destruct (group 1 (m_groups m)) as [num|]; [ | now split ].
  destruct (py_float (remove_commas num)) as [v|] eqn:Hv; [ | now split ].
  apply py_float_not_nan in Hv.
  assert (Hs' : is_scale (current_scale (update_scale t (m_start m) st))).
  { unfold update_scale. destruct (table_boundaries st); trivial.
    destruct (_ <? _); trivial. apply resolver_is_scale. }
  simpl. split; [ exact Hs' | ].
  rewrite update_scale_numbers. apply Forall_app. split; [ exact Hn | ].
  constructor; [ | constructor ]. split; simpl; trivial.
  apply apply_scale_word_not_nan. now apply mul_scale_not_nan.
Qed.

Lemma contextual_values (t : text) :
  Forall record_ok (extract_numbers_with_context t).
Proof.
  unfold extract_numbers_with_context, scan.
  assert (H : is_scale (current_scale (initial_state t))
              /\ Forall record_ok (numbers (initial_state t))).
  { split; [ | constructor ]. eexists _, _, _. vm_compute. reflexivity. }
  revert H. generalize (initial_state t) as st.
  induction (context_matches t) as [|m ms IH]; intros st H; simpl.
  - apply H.
  - apply IH. now apply scan_step_values.
Qed.

Lemma convert_all_values (nums : list text) (vals : list float) :
  convert_all nums = Ok vals -> Forall not_nan vals.
Proof.
  revert vals. induction nums as [|w nums IH]; intros vals H; simpl in H.
  - injection H as <-. constructor.
  - destruct (py_float (remove_commas w)) as [v|] eqn:Hv; [ | discriminate ].
    destruct (convert_all nums) as [vs|]; [ | discriminate ].
    injection H as <-. constructor; [ now apply py_float_not_nan in Hv | ].
    now apply IH.
Qed.

Lemma records_of_dict_set (d : nlp_dict) (p : nat) (recs : list number_record) :
  Forall record_ok (records_of d) -> Forall record_ok recs ->
  Forall record_ok (records_of (dict_set d p recs)).
Proof.
  intros Hd Hr. induction d as [|[k w] d IH]; unfold records_of in *; simpl in *.
  - now rewrite app_nil_r.
  - apply Forall_app in Hd. destruct Hd as [Hw Hd].
    destruct (k =? p)%nat; simpl; apply Forall_app; split; trivial.
    now apply IH.
Qed.

Lemma process_page_values (p : nat) (t : text)
      (acc acc' : list (float * nat) * nlp_dict) :
  results_ok acc -> process_page p t acc = Ok acc' -> results_ok acc'.
Proof.
  destruct acc as [base nlp]. intros [Hb Hn]. unfold process_page.
  destruct (extract_all_numbers t) as [vals|] eqn:Hv; [ | discriminate ].
  apply convert_all_values in Hv.
  assert (Hb' : keys_ok fst (base ++ map (fun num => (num, p)) vals)).
  { apply Forall_app. split; [ exact Hb | ]. now rewrite Forall_map. }
  pose proof (contextual_values t) as Hc.
  destruct (extract_numbers_with_context t) as [|r rs];
    intros E; injection E as <-; split; trivial.
  now apply records_of_dict_set.
Qed.

(** Whatever [process_pdf] returns holds numbers only. *)
Lemma process_pdf_values (pages : list text)
      (acc : list (float * nat) * nlp_dict) :
  process_pdf pages = Ok acc -> results_ok acc.
Proof.
  unfold process_pdf.
  assert (H : results_ok ([], [])) by (split; constructor).
  revert H. generalize 1%nat as k.
  generalize (([], []) : list (float * nat) * nlp_dict) as acc0.
  induction pages as [|t pages IH]; intros acc0 k H0 H; simpl in H.
  - now injection H as <-.
  - destruct (process_page k t acc0) as [acc1|] eqn:E; [ | discriminate ].
    apply (IH acc1 (S k)); trivial. now apply process_page_values in E.
Qed.

End PipelineValues.

(* ================================================================== *)
(** * The claims of the specification *)

(** C1. The resolver is run on the trailing word alone, and a word alone
    holds neither the phrase [in <word>] nor the abbreviation: the factor
    it multiplies by is 1 for each of the four keywords. On [5 million] the
    scaled value is 5, and on the stacking text, where the ambient scale
    of the literal 2 is 1e9, the scaled value is 2e9 and not 2e15. *)
Theorem C1_inline_word_factor_is_one :
  map extract_scale_factor keywords = [1; 1; 1; 1]%float
  /\ map record_view (extract_numbers_with_context (of_string "5 million"))
     = [ (5%float, 5%float, "million"%string, 0) ]
  /\ map record_view (extract_numbers_with_context (of_string "5 millions"))
     = [ (5%float, 5%float, "millions"%string, 0) ]
  /\ map record_view (extract_numbers_with_context stacking_text)
     = [ (202%float, 202e9%float, "4"%string, 15);
         (2%float, 2e9%float, "million"%string, 20) ].
Proof. repeat split; vm_compute; reflexivity. Qed.

(** C2, as the specification states it: the scaled values of the two
    records of the revenue text are not 1e8 and 1.505e8. *)
Lemma C2_revenue_not_scaled :
  map scaled (extract_numbers_with_context revenue_text)
  <> [1e8; 1.505e8]%float.
Proof. vm_compute. intros H. discriminate H. Qed.

(** C2, amended. On the revenue text the base extraction returns 100 and
    150.5; the text has no table boundary, so the ambient scale stays 1 and
    the contextual extraction returns the two records (100, 100, N/A, 20)
    and (150.5, 150.5, N/A, 31). *)
Theorem C2_revenue_scenario :
  extract_all_numbers revenue_text = Ok [100; 150.5]%float
  /\ detect_table_boundaries revenue_text = []
  /\ map record_view (extract_numbers_with_context revenue_text)
     = [ (100%float, 100%float, "N/A"%string, 20);
         (150.5%float, 150.5%float, "N/A"%string, 31) ].
Proof. repeat split; vm_compute; reflexivity. Qed.

(** C3, as the specification states it: the boundary of the trailing
    heading is detected and is still pending after the last match, so it
    is consumed not once but never. *)
Lemma C3_trailing_boundary_never_consumed :
  detect_table_boundaries trailing_heading_text = [1]
  /\ List.length (context_matches trailing_heading_text) = 1
  /\ table_boundaries (state_after trailing_heading_text 1) = [1]
  /\ consumed trailing_heading_text 1
     <> List.length (detect_table_boundaries trailing_heading_text).
Proof. repeat split; vm_compute; try reflexivity. discriminate. Qed.

(** C3, amended. The detected boundaries and the starts of the matches
    both increase. A round of the loop consumes one pending boundary at
    most: with [c] boundaries consumed before it, it consumes boundary [c]
    when that one lies before the match, and then the scale is the
    resolver's on the text from the last boundary to the match and the last
    boundary becomes boundary [c]; otherwise the pending boundaries, the
    scale and the last boundary stay. So the boundaries are consumed in
    their order, none twice, and the number consumed never decreases from
    one match to a later one. *)
Theorem C3_boundaries_drained_in_order (t : text) :
  StronglySorted lt (detect_table_boundaries t)
  /\ StronglySorted lt (map m_start (context_matches t))
  /\ (forall k m, nth_error (context_matches t) k = Some m -> round_spec t k m)
  /\ (forall j k,
        j <= k -> k <= List.length (context_matches t) ->
        consumed t j <= consumed t k).
Proof.
  split; [ apply finditer_from_increasing | ].
  split; [ apply finditer_from_increasing | ].
  split; [ apply round_holds | apply consumed_monotone ].
Qed.

Lemma C3_boundaries_drained_in_order_witness :
  consumed two_headings_text 0 <= consumed two_headings_text 1.
Proof.
  apply (proj2 (proj2 (proj2 (C3_boundaries_drained_in_order two_headings_text)))).
  - repeat constructor.
  - vm_compute. repeat constructor.
Defined.

(** C4, as the specification states it: a text with both phrases, and
    with a cue of thousand, does not resolve to 1e6. *)
Lemma C4_both_phrases_not_million :
  contains (of_string "in millions")
    (lower (of_string "in thousands, in millions, in billions")) = true
  /\ contains (of_string "in billions")
       (lower (of_string "in thousands, in millions, in billions")) = true
  /\ extract_scale_factor (of_string "in thousands, in millions, in billions")
     <> 1e6%float.
Proof.
  repeat split; try reflexivity.
  intros H. apply (f_equal (fun v => (v =? 1e6)%float)) in H.
  vm_compute in H. discriminate.
Qed.

(** C4, amended. The scale resolver tries the keywords in the order
    thousand, million, billion, trillion, each by its phrase [in <word>]
    or its abbreviation [($<first letter>)] searched in the lowered text,
    and returns the factor of the first keyword that has a cue; with no cue
    it returns 1. Two texts that differ by case only resolve alike. A text
    that contains both [in millions] and [in billions] resolves to 1e6
    when thousand, the only keyword tried before million, has no cue, and
    to 1e3 when it has one. *)
Theorem C4_resolver_first_match :
  map fst scale_factors = [thousand; million; billion; trillion]
  /\ (forall w t,
        cue_in w t =
          contains (of_string "in " ++ w) (lower t)
          || contains (of_string "($" ++ firstn 1 w ++ of_string ")") (lower t))
  /\ (forall t,
        (cue_in thousand t = true -> extract_scale_factor t = 1e3%float)
        /\ (cue_in thousand t = false -> cue_in million t = true ->
            extract_scale_factor t = 1e6%float)
        /\ (cue_in thousand t = false -> cue_in million t = false ->
            cue_in billion t = true -> extract_scale_factor t = 1e9%float)
        /\ (cue_in thousand t = false -> cue_in million t = false ->
            cue_in billion t = false -> cue_in trillion t = true ->
            extract_scale_factor t = 1e12%float)
        /\ (cue_in thousand t = false -> cue_in million t = false ->
            cue_in billion t = false -> cue_in trillion t = false ->
            extract_scale_factor t = 1%float))
  /\ (forall t u, lower t = lower u ->
        extract_scale_factor t = extract_scale_factor u)
  /\ (forall t,
        contains (of_string "in millions") (lower t) = true ->
        contains (of_string "in billions") (lower t) = true ->
        extract_scale_factor t =
          if cue_in thousand t then 1e3%float else 1e6%float).
Proof.
  split; [ reflexivity | ].
  split; [ reflexivity | ].
  split.
  { intros t. rewrite resolver_cases.
    repeat split; intros;
      repeat match goal with
             | H : cue_in _ _ = _ |- _ => rewrite H; clear H
             end; reflexivity. }
  split.
  { intros t u E. now apply first_factor_lower. }
  intros t Hm _. rewrite resolver_cases.
  assert (M : cue_in million t = true).
  { unfold cue_in. apply orb_true_iff. left.
    apply contains_app with (q := of_string "s"). exact Hm. }
  rewrite M. reflexivity.
Qed.

(** The example of the specification: both phrases, in mixed case. *)
Lemma C4_resolver_first_match_witness :
  extract_scale_factor (of_string "Amounts In Billions, shares IN MILLIONS")
  = 1e6%float.
Proof.
  destruct C4_resolver_first_match as (_ & _ & _ & _ & H).
  rewrite (H (of_string "Amounts In Billions, shares IN MILLIONS"));
    reflexivity.
Defined.

(** C5. The abbreviation of trillion is the abbreviation of thousand,
    [($t)], and thousand is tried first: a text that has this abbreviation
    resolves to 1e3, and a text that resolves to 1e12 has the phrase
    [in trillion] and not the abbreviation. *)
Theorem C5_abbreviation_never_trillion (t : text) :
  abbrev_cue trillion = abbrev_cue thousand
  /\ (contains (abbrev_cue trillion) (lower t) = true ->
      extract_scale_factor t = 1e3%float)
  /\ (extract_scale_factor t = 1e12%float ->
      contains (phrase_cue trillion) (lower t) = true
      /\ contains (abbrev_cue trillion) (lower t) = false).
Proof.
  assert (Hne : forall x : float,
             (x =? 1e12)%float = false -> x = 1e12%float -> False).
  { intros x Hx E. subst x. vm_compute in Hx. discriminate. }
  split; [ reflexivity | ]. rewrite resolver_cases. split.
  - intros H. unfold cue_in at 1. rewrite <- same_abbreviation, H, orb_true_r.
    reflexivity.
  - unfold cue_in at 1. rewrite <- same_abbreviation.
    destruct (contains (abbrev_cue trillion) (lower t)) eqn:A.
    + rewrite orb_true_r. intros H. now apply Hne in H.
    + rewrite orb_false_r.
      destruct (contains (phrase_cue thousand) (lower t));
        [ intros H; now apply Hne in H | ].
      destruct (cue_in million t); [ intros H; now apply Hne in H | ].
      destruct (cue_in billion t); [ intros H; now apply Hne in H | ].
      unfold cue_in. rewrite A, orb_false_r.
      destruct (contains (phrase_cue trillion) (lower t)).
      * intros _. split; reflexivity.
      * intros H. now apply Hne in H.
Qed.

Lemma C5_abbreviation_never_trillion_witness :
  extract_scale_factor (of_string "Totals ($T)") = 1e3%float.
Proof.
  apply (proj1 (proj2 (C5_abbreviation_never_trillion (of_string "Totals ($T)")))).
  reflexivity.
Defined.

(** C6. On a list of (value, page) pairs that is not empty the base
    selector returns the first pair of the largest value: the pairs before
    it are smaller, the pairs after it are not greater. On a mapping with
    a record the contextual selector returns, with its page, the first
    record of the largest scaled value, in the order of the pages and of
    the records of a page. When the largest value of page 1 is 999.99 and
    the largest of page 2 is 1000, the base selector returns 1000 on page
    2. Values are numbers, none is a NaN: so are all the values that
    [process_pdf] returns. *)
Theorem C6_selectors_return_first_maximum :
  (forall nums : list (float * nat),
      nums <> [] -> keys_ok fst nums ->
      exists best,
        find_largest_number nums = Ok (Some best) /\ first_max fst nums best)
  /\ (forall d : nlp_dict,
        all_nlp_numbers d <> [] -> Forall record_ok (records_of d) ->
        exists best,
          find_largest_nlp_number d = Ok (Some best)
          /\ first_max scaled_of (all_nlp_numbers d) best)
  /\ (forall page1 page2 : list float,
        Forall not_nan (page1 ++ page2) ->
        page_max page1 v999_99 -> page_max page2 1000%float ->
        exists v,
          find_largest_number (on_page 1 page1 ++ on_page 2 page2)
          = Ok (Some (v, 2))
          /\ (v =? 1000)%float = true)
  /\ (forall pages all_numbers nlp_results,
        process_pdf pages = Ok (all_numbers, nlp_results) ->
        keys_ok fst all_numbers /\ Forall record_ok (records_of nlp_results)).
Proof.
  split; [ exact find_largest_number_spec | ].
  split; [ exact find_largest_nlp_number_spec | ].
  split; [ exact two_page_scenario | ].
  intros pages all_numbers nlp_results H.
  exact (process_pdf_values pages H).
Qed.

(** A tie between pages 2 and 3: the pair of page 2 is returned. *)
Lemma C6_selectors_return_first_maximum_witness :
  exists best,
    find_largest_number [(3%float, 1); (7%float, 2); (7%float, 3)] = Ok (Some best)
    /\ first_max fst [(3%float, 1); (7%float, 2); (7%float, 3)] best.
Proof.
  apply (proj1 C6_selectors_return_first_maximum).
  - discriminate.
  - repeat constructor.
Defined.

(** C7. With no input both selectors return [None], and raise nothing. *)
Theorem C7_selectors_on_no_input :
  find_largest_number [] = Ok None
  /\ find_largest_nlp_number [] = Ok None.
Proof. split; reflexivity. Qed.

(** C8. The base extractor raises nothing: it returns the matched
    substrings, each converted by [float] after its commas are removed, and
    none of the values is a NaN. The contextual extractor returns one
    record for each match, whose original value is group 1 converted in the
    same way: no conversion fails. A match whose conversion would fail
    would leave the state of the loop as it is, and the loop would go on
    with the next match. *)
Theorem C8_extraction_never_raises (t : text) :
  (exists vals,
      extract_all_numbers t = Ok vals
      /\ Forall2 (fun w v => py_float (remove_commas w) = Some v)
                 (findall number_pattern t) vals
      /\ Forall not_nan vals)
  /\ Forall2 record_of_match (context_matches t) (extract_numbers_with_context t)
  /\ Forall record_ok (extract_numbers_with_context t)
  /\ (forall st m,
        (forall w, group 1 (m_groups m) = Some w ->
                   py_float (remove_commas w) = None) ->
        scan_step t st m = st).
Proof.
  split.
  { destruct (extract_all_numbers_ok t) as (vals & Hv & Hall).
    exists vals. repeat split; trivial. now apply convert_all_values in Hv. }
  split; [ apply context_records | ].
  split; [ apply contextual_values | apply scan_step_skips ].
Qed.

(** A match made up by hand whose group 1 is no number is skipped. *)
Lemma C8_extraction_never_raises_witness :
  scan_step [] (initial_state [])
    {| m_start := 0; m_text := of_string "1,5";
       m_groups := [(1, of_string ",")] |}
  = initial_state [].
Proof.
  apply (proj2 (proj2 (proj2 (C8_extraction_never_raises [])))).
  intros w H. vm_compute in H. injection H as <-. reflexivity.
Defined.



(** C10. [process_pdf] returns its two results for every list of page
    texts. The mapping has no entry for a page whose contextual extraction
    is empty, and it has the records of the page otherwise, so no page is
    mapped to an empty sequence. The base list holds every literal of the
    base extraction of every page, with the number of the page, whatever
    the contextual extraction of the page is. *)
Theorem C10_empty_pages_are_absent (pages : list text) :
  exists all_numbers nlp_results,
    process_pdf pages = Ok (all_numbers, nlp_results)
    /\ no_empty_page nlp_results
    /\ (forall n t,
          nth_error pages n = Some t ->
          (extract_numbers_with_context t = [] ->
           dict_get nlp_results (S n) = None)
          /\ (extract_numbers_with_context t <> [] ->
              dict_get nlp_results (S n) = Some (extract_numbers_with_context t))
          /\ (exists vals,
                 extract_all_numbers t = Ok vals
                 /\ forall v, In v vals -> In (v, S n) all_numbers)).
Proof.
  unfold process_pdf.
  destruct (process_pages_spec pages 1 [] [])
    as (base' & nlp' & Hrun & _ & _ & Hne & Hpages).
  exists base', nlp'. split; [ exact Hrun | ].
  split; [ apply Hne; intros e [] | ].
  intros n t Hn. destruct (Hpages n t Hn) as (H1 & H2 & H3).
  repeat split; trivial.
Qed.

Lemma C10_empty_pages_are_absent_witness :
  exists all_numbers nlp_results,
    process_pdf [revenue_text; of_string "no numbers here"; stacking_text]
    = Ok (all_numbers, nlp_results)
    /\ dict_get nlp_results 2 = None.
Proof.
  destruct (C10_empty_pages_are_absent
              [revenue_text; of_string "no numbers here"; stacking_text])
    as (all_numbers & nlp_results & Hrun & _ & Hpages).
  exists all_numbers, nlp_results. split; [ exact Hrun | ].
  apply (Hpages 1 (of_string "no numbers here") eq_refl). reflexivity.
Defined.

(* ================================================================== *)
(** * Further properties: where the patterns match *)

Section WhereNumbersMatch.

Lemma number_pattern_alternatives :
  number_pattern = Alt first_alternative second_alternative.
Proof. reflexivity. Qed.

(** An expression that never fails matches whenever its continuation
    does. *)
Lemma run_never_fails (r : regex) :
  never_fails r = true ->
  forall (A : Type) (s : text) (c : captures)
         (k : text -> captures -> option A),
    (forall s' c', k s' c' <> None) -> run r s c k <> None.
Proof.
  induction r as [|p|r1 IH1 r2 IH2|r1 IH1 r2 IH2|r1 IH1|n r1 IH1];
    intros Hnf A s c k Hk; cbn [run]; simpl in Hnf.
  - apply Hk.
  - discriminate.
  - apply andb_true_iff in Hnf. destruct Hnf as [H1 H2].
    apply IH1; trivial. intros s' c'. now apply IH2.
  - destruct (run r1 s c k) eqn:E; [ discriminate | ].
    apply orb_true_iff in Hnf. destruct Hnf as [H1|H2].
    + exfalso. revert E. now apply IH1.
    + now apply IH2.
  - destruct (List.length s); cbn [rounds]; [ apply Hk | ].
    destruct (run r1 s c _); [ discriminate | apply Hk ].
  - apply IH1; [ exact Hnf | ]. intros s' c'. apply Hk.
Qed.

Lemma digit_not_is_sign (c : ascii) : is_digit c = true -> is_sign c = false.
Proof.
  intros H. destruct (digit_not_sign c H) as [H1 H2].
  unfold is_sign. simpl. rewrite orb_false_r.
  unfold is_char, code in *.
  apply orb_false_iff. split; apply Ascii.eqb_neq; intros ->;
    [ vm_compute in H1 | vm_compute in H2 ]; discriminate.
Qed.

(** From the digit on, the first alternative cannot fail. *)
Lemma digits_onward (A : Type) (d : ascii) (s : text) (c : captures)
      (k : text -> captures -> option A) :
  is_digit d = true -> (forall s' c', k s' c' <> None) ->
  run (Seq (Repeat 1 2 digit)
         (Seq (Star (Seq (Lit (of_string ",")) (Times 3 digit))) fraction))
      (d :: s) c k <> None.
Proof.
  intros Hd Hk. unfold Repeat. cbn [run Times digit]. rewrite Hd.
  apply (@run_never_fails (UpTo 2 digit) eq_refl). intros s' c'.
  apply (@run_never_fails
           (Seq (Star (Seq (Lit (of_string ",")) (Times 3 digit))) fraction)
           eq_refl).
  exact Hk.
Qed.

(** Where a number starts, the first alternative matches. *)
Lemma first_alternative_matches (A : Type) (s : text) (c : captures)
      (k : text -> captures -> option A) :
  starts_number s = true -> (forall s' c', k s' c' <> None) ->
  run first_alternative s c k <> None.
Proof.
  intros Hs Hk. destruct s as [|x s]; [ discriminate | ]. simpl in Hs.
  unfold first_alternative, Opt, one_of. cbn [run].
  fold (is_sign x).
  destruct (is_digit x) eqn:Hx.
  - rewrite (digit_not_is_sign _ Hx).
    now apply digits_onward.
  - simpl in Hs. destruct (is_sign x); [ | discriminate ].
    destruct s as [|d s]; [ discriminate | ]. simpl in Hs.
    match goal with
    | |- match ?e with _ => _ end <> None => destruct e eqn:E
    end; [ discriminate | ].
    exfalso. revert E. now apply digits_onward.
Qed.

End WhereNumbersMatch.

Section LiteralShape.

Lemma matches_times_length (p : ascii -> bool) (n : nat) (w : text) :
  matches (Times n (Chr p)) w -> List.length w = n.
Proof.
  revert w. induction n as [|n IH]; intros w H; simpl in H.
  - inversion H; subst. reflexivity.
  - apply matches_seq_inv in H. destruct H as (w1 & w2 & -> & H1 & H2).
    apply matches_chr_inv in H1. destruct H1 as (a & -> & _).
    simpl. f_equal. now apply IH.
Qed.

Lemma matches_upto_length (p : ascii -> bool) (n : nat) (w : text) :
  matches (UpTo n (Chr p)) w -> List.length w <= n.
Proof.
  revert w. induction n as [|n IH]; intros w H; simpl in H.
  - inversion H; subst. reflexivity.
  - apply matches_opt in H. destruct H as [H| ->]; [ | simpl; lia ].
    apply matches_seq_inv in H. destruct H as (w1 & w2 & -> & H1 & H2).
    apply matches_chr_inv in H1. destruct H1 as (a & -> & _).
    simpl. apply IH in H2. lia.
Qed.

Lemma comma_groups_head (w : text) :
  matches (Star (Seq (Lit (of_string ",")) (Times 3 digit))) w ->
  w = [] \/ exists rest, w = of_string "," ++ rest.
Proof.
  apply (@matches_star_rounds
           (fun u => u = [] \/ exists rest, u = of_string "," ++ rest));
    [ now left | ].
  intros w1 w2 H _. right.
  apply matches_seq_inv in H. destruct H as (u1 & u2 & -> & H1 & _).
  apply matches_lit in H1. subst u1. exists (u2 ++ w2).
  now rewrite <- app_assoc.
Qed.

(** The words of the first alternative. *)
Lemma first_alternative_words (w : text) :
  matches first_alternative w -> literal_shape w.
Proof.
  unfold first_alternative. intros H.
  apply matches_seq_inv in H. destruct H as (sg & w1 & -> & Hsg & H).
  apply matches_seq_inv in H. destruct H as (ip & w2 & -> & Hip & H).
  apply matches_seq_inv in H. destruct H as (cg & fr & -> & Hcg & Hfr).
  apply sign_words in Hsg. destruct Hsg as [Hsg _].
  apply fraction_words in Hfr. destruct Hfr as [Hfr _].
  apply comma_groups_head in Hcg.
  unfold Repeat in Hip.
  apply matches_seq_inv in Hip. destruct Hip as (d1 & d2 & -> & Hd1 & Hd2).
  pose proof (@matches_times_chr is_digit 1 d1 Hd1) as D1.
  pose proof (@matches_times_length is_digit 1 d1 Hd1) as L1.
  pose proof (@matches_upto_chr is_digit 2 d2 Hd2) as D2.
  pose proof (@matches_upto_length is_digit 2 d2 Hd2) as L2.
  exists sg, (d1 ++ d2), (cg ++ fr). repeat split; trivial.
  - now apply Forall_app.
  - rewrite length_app. lia.
  - rewrite length_app. lia.
  - destruct Hcg as [->|(rest & ->)].
    + destruct Hfr as [->|(ds & -> & _)]; [ now left | right ].
      eexists _, _. split; reflexivity.
    + right. eexists _, _. split; reflexivity.
Qed.

Lemma literal_shape_starts (w rest : text) :
  literal_shape w -> starts_number (w ++ rest) = true.
Proof.
  intros (sg & ds & r & -> & Hsg & Hd & [Hl _] & _).
  destruct ds as [|d ds]; [ simpl in Hl; lia | ].
  inversion Hd as [|? ? Hd1 _]; subst.
  destruct Hsg as [->|[->| ->]]; simpl; rewrite Hd1;
    rewrite ?orb_true_r; reflexivity.
Qed.

Lemma second_alternative_starts (w rest : text) :
  matches second_alternative w -> starts_number (w ++ rest) = true.
Proof.
  unfold second_alternative. intros H.
  apply matches_seq_inv in H. destruct H as (ds & fr & -> & Hds & _).
  apply matches_plus_chr in Hds. destruct Hds as [Hne Hd].
  destruct ds as [|d ds]; [ congruence | ]. inversion Hd; subst.
  simpl. now rewrite H1.
Qed.

(** The number pattern matches through its first alternative: the second
    one has no word that the first does not begin. *)
Lemma number_run_first (A : Type) (s : text) (c : captures)
      (k : text -> captures -> option A) :
  (forall s' c', k s' c' <> None) ->
  run number_pattern s c k = run first_alternative s c k.
Proof.
  intros Hk. rewrite number_pattern_alternatives. cbn [run].
  destruct (run first_alternative s c k) eqn:E; [ reflexivity | ].
  destruct (run second_alternative s c k) eqn:F; [ exfalso | reflexivity ].
  apply run_sound in F. destruct F as (w & s' & new & -> & M & _).
  revert E. apply first_alternative_matches; [ | exact Hk ].
  now apply second_alternative_starts.
Qed.

End LiteralShape.

Section WhereMatchesStart.

Lemma match_here_number_first (s : text) :
  match_here number_pattern s = match_here first_alternative s.
Proof. unfold match_here. apply number_run_first. discriminate. Qed.

Lemma match_here_number_words (s : text) (len : nat) (c : captures) :
  match_here number_pattern s = Some (len, c) ->
  matches first_alternative (firstn len s).
Proof.
  rewrite match_here_number_first. intros H. apply match_here_sound in H.
  destruct H as (w & s' & _ & M & F & _). now rewrite F.
Qed.

(** The number pattern matches at the head of [s] exactly when a number
    starts there. *)
Lemma match_here_number_iff (s : text) :
  match_here number_pattern s <> None <-> starts_number s = true.
Proof.
  split.
  - destruct (match_here number_pattern s) as [[len c]|] eqn:E;
      [ intros _ | congruence ].
    rewrite match_here_number_first in E. apply match_here_sound in E.
    destruct E as (w & s' & -> & M & _).
    apply literal_shape_starts. now apply first_alternative_words.
  - intros H. rewrite match_here_number_first. unfold match_here.
    apply first_alternative_matches; [ exact H | discriminate ].
Qed.

Lemma first_alternative_no_group (n : nat) (w : text) :
  ~ bound_by first_alternative n w.
Proof. cbn. tauto. Qed.

(** The continuation of group 1 in the context pattern: white space and
    an optional word; it never fails. *)
Lemma context_run (A : Type) (s : text) (c : captures)
      (k : text -> captures -> option A) :
  (forall s' c', k s' c' <> None) ->
  run context_pattern s c k =
    run first_alternative s c
      (fun s' c' =>
         run (Seq (Star space) (Opt (Group 2 (Plus word_char)))) s'
             ((1, firstn (List.length s - List.length s') s) :: c') k).
Proof.
  intros Hk. unfold context_pattern. cbn [run]. apply number_run_first.
  intros s' c'.
  apply (@run_never_fails
           (Seq (Star space) (Opt (Group 2 (Plus word_char)))) eq_refl).
  exact Hk.
Qed.

Lemma match_here_context_iff (s : text) :
  match_here context_pattern s <> None <-> starts_number s = true.
Proof.
  unfold match_here. rewrite context_run by discriminate. split.
  - match goal with |- ?e <> None -> _ => destruct e eqn:E end;
      [ intros _ | congruence ].
    apply run_sound in E. destruct E as (w & s' & new & -> & M & _).
    apply literal_shape_starts. now apply first_alternative_words.
  - intros H. apply first_alternative_matches; [ exact H | ].
    intros s' c'.
    apply (@run_never_fails
             (Seq (Star space) (Opt (Group 2 (Plus word_char)))) eq_refl).
    discriminate.
Qed.

Lemma context_match_first (s : text) (len : nat) (c : captures) :
  match_here context_pattern s = Some (len, c) ->
  exists w, group 1 c = Some w /\ matches first_alternative w.
Proof.
  unfold match_here. rewrite context_run by discriminate. intros H.
  apply run_sound in H. destruct H as (w & s1 & new1 & E1 & M1 & B1 & H).
  assert (new1 = []).
  { destruct new1 as [|[n u] new1]; trivial. inversion B1; subst.
    now apply first_alternative_no_group in H2. }
  subst new1. rewrite E1, firstn_consumed in H. simpl app in H.
  apply (@run_sound (Seq (Star space) (Opt (Group 2 (Plus word_char))))) in H.
  destruct H as (w2 & s2 & new2 & E2 & M2 & B2 & H).
  injection H as _ Hc. exists w. split; [ | exact M1 ].
  rewrite <- Hc, group_skip; [ reflexivity | ].
  eapply Forall_impl; [ | exact B2 ]. intros [n u]. cbn. intros F.
  destruct F as [[]|[[[<- _]|[[]|[]]]|[]]]. discriminate.
Qed.

(** The matches of [finditer], by their offset in the subject: a match
    at [pos + i] is a match at the head of the subject without its first
    [i] characters. *)
Lemma finditer_from_offset (r : regex) (s : text) (pos skip : nat) (m : re_match) :
  In m (finditer_from r s pos skip) ->
  exists i len,
    m_start m = pos + i /\ i <= List.length s
    /\ match_here r (skipn i s) = Some (len, m_groups m)
    /\ m_text m = firstn len (skipn i s).
Proof.
  revert pos skip. induction s as [|a s IH]; intros pos skip Hin; simpl in Hin.
  - destruct skip; [ | destruct Hin ].
    destruct (match_here r []) as [[len c]|] eqn:E; [ | destruct Hin ].
    destruct Hin as [<-|[]]. exists 0, len. simpl.
    rewrite firstn_nil. repeat split; trivial; lia.
  - assert (Hrec : forall k, In m (finditer_from r s (S pos) k) ->
                exists i len,
                  m_start m = pos + i /\ i <= List.length (a :: s)
                  /\ match_here r (skipn i (a :: s)) = Some (len, m_groups m)
                  /\ m_text m = firstn len (skipn i (a :: s))).
    { intros k Hk. apply IH in Hk.
      destruct Hk as (i & len & H1 & H2 & H3 & H4).
      exists (S i), len. simpl. repeat split; trivial; lia. }
    destruct skip as [|skip]; [ | now apply Hrec in Hin ].
    destruct (match_here r (a :: s)) as [[len c]|] eqn:E;
      [ | now apply Hrec in Hin ].
    destruct Hin as [<-|Hin]; [ | now apply Hrec in Hin ].
    exists 0, len. simpl. repeat split; trivial; lia.
Qed.

(** [finditer] finds nothing exactly when the pattern matches at no
    offset. *)
Lemma finditer_from_nil (r : regex) (s : text) (pos : nat) :
  finditer_from r s pos 0 = [] <->
  forall i, i <= List.length s -> match_here r (skipn i s) = None.
Proof.
  revert pos. induction s as [|a s IH]; intros pos; simpl.
  - split.
    + intros H i Hi. assert (i = 0) by lia. subst i. simpl.
      destruct (match_here r []) as [[len c]|]; [ discriminate | reflexivity ].
    + intros H. pose proof (H 0 (le_n 0)) as H0. simpl in H0.
      now rewrite H0.
  - split.
    + intros H i Hi.
      destruct (match_here r (a :: s)) as [[len c]|] eqn:E; [ discriminate | ].
      destruct i as [|i]; [ exact E | ]. simpl.
      apply (proj1 (IH (S pos)) H). lia.
    + intros H. pose proof (H 0 ltac:(lia)) as H0. simpl in H0.
      rewrite H0. apply IH. intros i Hi. apply (H (S i)). lia.
Qed.

End WhereMatchesStart.

Section SamePages.

Lemma lower_char_keeps_digit (c : ascii) :
  is_digit (lower_char c) = is_digit c /\ is_sign (lower_char c) = is_sign c.
Proof. destruct c as [[] [] [] [] [] [] [] []]; split; reflexivity. Qed.

Lemma starts_number_lower (s : text) :
  starts_number (lower s) = starts_number s.
Proof.
  destruct s as [|c [|d s]]; simpl; trivial;
    destruct (lower_char_keeps_digit c) as [-> ->]; trivial.
  now destruct (lower_char_keeps_digit d) as [-> _].
Qed.

Lemma skipn_lower (i : nat) (s : text) : skipn i (lower s) = lower (skipn i s).
Proof. unfold lower. apply skipn_map. Qed.

Lemma length_lower (s : text) : List.length (lower s) = List.length s.
Proof. unfold lower. apply length_map. Qed.

(** The base pattern matches somewhere in the text exactly when the
    context pattern matches somewhere in the lowered text. *)
Lemma no_match_alike (t : text) :
  findall number_pattern t = [] <-> context_matches t = [].
Proof.
  unfold findall, context_matches, finditer.
  split.
  - intros H. apply map_eq_nil in H.
    apply finditer_from_nil. intros i Hi.
    destruct (match_here context_pattern (skipn i (lower t))) eqn:E; trivial.
    exfalso.
    assert (S : starts_number (skipn i t) = true).
    { rewrite <- starts_number_lower, <- skipn_lower.
      apply match_here_context_iff. congruence. }
    apply match_here_number_iff in S. apply S.
    apply (proj1 (finditer_from_nil number_pattern t 0) H).
    now rewrite length_lower in Hi.
  - intros H.
    assert (F : finditer_from number_pattern t 0 0 = []); [ | now rewrite F ].
    apply finditer_from_nil. intros i Hi.
    destruct (match_here number_pattern (skipn i t)) eqn:E; trivial.
    exfalso.
    assert (S : starts_number (skipn i (lower t)) = true).
    { rewrite skipn_lower, starts_number_lower.
      apply match_here_number_iff. congruence. }
    apply match_here_context_iff in S. apply S.
    apply (proj1 (finditer_from_nil context_pattern (lower t) 0) H).
    now rewrite length_lower.
Qed.

Lemma convert_all_nil (nums : list text) :
  convert_all nums = Ok [] <-> nums = [].
Proof.
  split; [ | now intros -> ].
  destruct nums as [|w nums]; trivial. simpl.
  destruct (py_float (remove_commas w)); [ | discriminate ].
  destruct (convert_all nums); discriminate.
Qed.

Lemma contextual_nil (t : text) :
  extract_numbers_with_context t = [] <-> context_matches t = [].
Proof.
  pose proof (Forall2_length (context_records t)) as L.
  split; intros H; rewrite H in L; simpl in L.
  - now apply length_zero_iff_nil.
  - apply length_zero_iff_nil. congruence.
Qed.

Lemma same_pages (t : text) :
  extract_numbers_with_context t = [] <-> extract_all_numbers t = Ok [].
Proof.
  rewrite contextual_nil, <- no_match_alike.
  unfold extract_all_numbers. symmetry. apply convert_all_nil.
Qed.

End SamePages.

(* ================================================================== *)
(** * Further properties: the records of the loop *)

Section Rounds.

Variable t : text.

Lemma resolver_in_scales (u : text) : In (extract_scale_factor u) scales.
Proof.
  rewrite resolver_cases. unfold scales.
  destruct (cue_in thousand u); [ simpl; tauto | ].
  destruct (cue_in million u); [ simpl; tauto | ].
  destruct (cue_in billion u); [ simpl; tauto | ].
  destruct (cue_in trillion u); simpl; tauto.
Qed.

Lemma scan_step_scale (st : scan_state) (m : re_match) :
  In (current_scale st) scales -> In (current_scale (scan_step t st m)) scales.
Proof.
  intros H. unfold scan_step.
  destruct (group 1 (m_groups m)); trivial.
  destruct (py_float _); trivial. simpl.
  unfold update_scale. destruct (table_boundaries st); trivial.
  destruct (_ <? _); trivial. apply resolver_in_scales.
Qed.

Lemma state_scale (k : nat) : In (current_scale (state_after t k)) scales.
Proof.
  unfold state_after, scan.
  assert (H : In (current_scale (initial_state t)) scales) by (simpl; tauto).
  revert H. generalize (initial_state t) as st.
  induction (firstn k (context_matches t)) as [|m ms IH]; intros st H; simpl;
    trivial.
  apply IH. now apply scan_step_scale.
Qed.

(** The records grow by one per round. *)
Lemma numbers_after_succ (k : nat) (m : re_match) :
  nth_error (context_matches t) k = Some m ->
  exists r,
    numbers (state_after t (S k)) = numbers (state_after t k) ++ [r]
    /\ record_at t k m r.
Proof.
  intros Hm. destruct (nth_error_converts _ _ Hm) as (w & v & Hcv).
  pose proof (state_after_succ _ _ Hm) as E.
  destruct (scan_step_fields t (state_after t k) Hcv) as (_ & Hs & _ & Hn).
  rewrite <- E in Hs, Hn.
  eexists. split; [ exact Hn | ].
  unfold record_at. simpl. rewrite Hs. repeat split. now exists w.
Qed.

Lemma numbers_after_length (k : nat) :
  k <= List.length (context_matches t) ->
  List.length (numbers (state_after t k)) = k.
Proof.
  induction k as [|k IH]; intros Hk; [ reflexivity | ].
  destruct (nth_error (context_matches t) k) as [m|] eqn:Hm;
    [ | apply nth_error_None in Hm; lia ].
  destruct (numbers_after_succ _ Hm) as (r & E & _).
  rewrite E, length_app, IH by lia. simpl. lia.
Qed.

Lemma numbers_after_prefix (j k : nat) :
  j <= k -> k <= List.length (context_matches t) ->
  exists more,
    numbers (state_after t k) = numbers (state_after t j) ++ more.
Proof.
  induction 1 as [|k Hjk IH]; intros Hk.
  - exists []. now rewrite app_nil_r.
  - destruct IH as (more & E); [ lia | ].
    destruct (nth_error (context_matches t) k) as [m|] eqn:Hm;
      [ | apply nth_error_None in Hm; lia ].
    destruct (numbers_after_succ _ Hm) as (r & E' & _).
    exists (more ++ [r]). now rewrite E', E, app_assoc.
Qed.

Lemma state_after_all :
  extract_numbers_with_context t
  = numbers (state_after t (List.length (context_matches t))).
Proof.
  unfold extract_numbers_with_context, state_after. now rewrite firstn_all.
Qed.

(** Record [k] is the record of match [k]. *)
Lemma record_by_round (k : nat) (m : re_match) :
  nth_error (context_matches t) k = Some m ->
  exists r,
    nth_error (extract_numbers_with_context t) k = Some r
    /\ record_at t k m r.
Proof.
  intros Hm.
  assert (Hk : k < List.length (context_matches t)).
  { apply nth_error_Some. congruence. }
  destruct (numbers_after_succ _ Hm) as (r & E & Hr).
  exists r. split; [ | exact Hr ].
  destruct (@numbers_after_prefix (S k) (List.length (context_matches t)))
    as (more & E'); try lia.
  rewrite state_after_all, E', E, <- app_assoc.
  rewrite nth_error_app2; rewrite numbers_after_length by lia; [ | lia ].
  now rewrite Nat.sub_diag.
Qed.

Lemma record_has_round (r : number_record) :
  In r (extract_numbers_with_context t) ->
  exists k m,
    nth_error (context_matches t) k = Some m /\ record_at t k m r.
Proof.
  intros Hin. apply In_nth_error in Hin. destruct Hin as [k Hk].
  assert (Hlen : k < List.length (context_matches t)).
  { rewrite (Forall2_length (context_records t)).
    apply nth_error_Some. congruence. }
  destruct (nth_error (context_matches t) k) as [m|] eqn:Hm;
    [ | apply nth_error_None in Hm; lia ].
  destruct (record_by_round _ Hm) as (r' & E & Hr).
  exists k, m. split; trivial. congruence.
Qed.

End Rounds.

Section TrailingWord.

Lemma text_eqb_eq (a b : text) : Text.eqb a b = true -> a = b.
Proof.
  unfold Text.eqb. destruct (list_eq_dec ascii_dec a b); [ trivial | discriminate ].
Qed.

(** The resolver on a keyword alone. *)
Lemma keyword_factor_one (w : text) :
  is_keyword w = true -> extract_scale_factor w = 1%float.
Proof.
  unfold is_keyword, keywords. simpl. rewrite orb_false_r.
  intros H. repeat (apply orb_true_iff in H; destruct H as [H|H]);
    apply text_eqb_eq in H; subst w; reflexivity.
Qed.

(** The trailing word leaves the number as it is, or multiplies it by 1. *)
Lemma apply_scale_word_cases (w : option text) (x : float) :
  apply_scale_word w x = x \/ apply_scale_word w x = (x * 1)%float.
Proof.
  unfold apply_scale_word. destruct w as [word|]; [ | now left ].
  destruct (is_keyword word) eqn:K.
  - right. now rewrite keyword_factor_one.
  - destruct (_ && _) eqn:E; [ right | now left ].
    apply andb_true_iff in E. destruct E as [_ E].
    now rewrite keyword_factor_one.
Qed.

End TrailingWord.

Section BeforeBoundaries.

Variable t : text.

Lemma sorted_nth_lt (l : list nat) (i j a b : nat) :
  StronglySorted lt l -> i < j ->
  nth_error l i = Some a -> nth_error l j = Some b -> a < b.
Proof.
  intros Hs. revert i j. induction Hs as [|x l Hs IH Hx]; intros i j Hij Ha Hb.
  - destruct i; discriminate.
  - destruct j as [|j]; [ lia | ]. simpl in Hb.
    destruct i as [|i]; simpl in Ha.
    + injection Ha as <-. rewrite Forall_forall in Hx. apply Hx.
      now apply nth_error_In in Hb.
    + apply (IH i j); trivial. lia.
Qed.

(** As long as no match lies beyond a boundary, nothing is consumed and
    the scale is 1. *)
Lemma untouched_before (k : nat) :
  k <= List.length (context_matches t) ->
  (forall j m, j < k -> nth_error (context_matches t) j = Some m ->
               forall b, In b (detect_table_boundaries t) -> m_start m <= b) ->
  table_boundaries (state_after t k) = detect_table_boundaries t
  /\ current_scale (state_after t k) = 1%float.
Proof.
  induction k as [|k IH]; intros Hk Hbefore; [ now split | ].
  destruct IH as [Hp Hs]; [ lia | intros j m Hj; apply Hbefore; lia | ].
  destruct (nth_error (context_matches t) k) as [m|] eqn:Hm;
    [ | apply nth_error_None in Hm; lia ].
  rewrite (state_after_succ _ _ Hm).
  destruct (nth_error_converts _ _ Hm) as (w & v & Hcv).
  destruct (scan_step_cases t (state_after t k) Hcv)
    as [[_ (Hb & Hc & _)]|[(b & rest & _ & _ & Hb & Hc & _)|(b & Hlt & Hb & _)]].
  - split; congruence.
  - split; congruence.
  - exfalso. rewrite Hp in Hb.
    assert (Hin : In b (detect_table_boundaries t)) by (rewrite Hb; now left).
    pose proof (Hbefore k m (Nat.lt_succ_diag_r k) Hm b Hin). lia.
Qed.

Lemma scale_one_before (r : number_record) :
  In r (extract_numbers_with_context t) ->
  (forall b, In b (detect_table_boundaries t) -> position r <= b) ->
  scaled r = (original r * 1)%float \/ scaled r = (original r * 1 * 1)%float.
Proof.
  intros Hin Hb. destruct (record_has_round t r Hin) as (k & m & Hm & Hr).
  destruct Hr as (_ & Hpos & _ & Hsc).
  assert (Hk : k < List.length (context_matches t)).
  { apply nth_error_Some. congruence. }
  destruct (@untouched_before (S k)) as [_ Hs]; [ lia | | ].
  - intros j m' Hj Hm' b Hbin. specialize (Hb b Hbin). rewrite Hpos in Hb.
    destruct (Nat.eq_dec j k) as [->|Hne]; [ congruence | ].
    assert (m_start m' < m_start m); [ | lia ].
    apply (@sorted_nth_lt (map m_start (context_matches t)) j k).
    + apply finditer_from_increasing.
    + lia.
    + now rewrite nth_error_map, Hm'.
    + now rewrite nth_error_map, Hm.
  - rewrite Hs in Hsc. rewrite Hsc. apply apply_scale_word_cases.
Qed.

End BeforeBoundaries.

Section Offsets.

Variable t : text.

Lemma starts_number_head (s : text) :
  starts_number s = true ->
  exists c rest, s = c :: rest /\ (is_digit c || is_sign c) = true.
Proof.
  destruct s as [|c rest]; [ discriminate | ]. simpl. intros H.
  exists c, rest. split; trivial.
  apply orb_true_iff in H. destruct H as [->|H]; trivial.
  apply andb_true_iff in H. destruct H as [-> _]. apply orb_true_r.
Qed.

Lemma skipn_head_nth (A : Type) (l : list A) (i : nat) (c : A) (rest : list A) :
  skipn i l = c :: rest -> nth_error l i = Some c.
Proof. intros H. now apply skipn_cons_nth in H. Qed.

(** A match of the context pattern starts on a digit or a sign of the
    lowered text, the text that the pattern is matched on. *)
Lemma context_match_offset (m : re_match) :
  In m (context_matches t) ->
  exists c, nth_error (lower t) (m_start m) = Some c
            /\ (is_digit c || is_sign c) = true.
Proof.
  unfold context_matches, finditer. intros Hin.
  apply finditer_from_offset in Hin.
  destruct Hin as (i & len & Hs & _ & Hm & _). simpl in Hs. subst i.
  assert (S : starts_number (skipn (m_start m) (lower t)) = true).
  { apply match_here_context_iff. congruence. }
  apply starts_number_head in S. destruct S as (c & rest & E & Hc).
  exists c. split; [ now apply skipn_head_nth in E | exact Hc ].
Qed.

Lemma positions_are_starts :
  map position (extract_numbers_with_context t)
  = map m_start (context_matches t).
Proof.
  pose proof (context_records t) as H.
  induction H as [|m r ms rs (w & _ & Hp) _ IH]; simpl; trivial.
  now rewrite Hp, IH.
Qed.

Lemma boundary_pattern_words (w : text) :
  matches boundary_pattern w -> exists rest, w = newline :: rest.
Proof.
  unfold boundary_pattern. intros H.
  apply matches_seq_inv in H. destruct H as (w1 & w2 & -> & H1 & _).
  apply matches_lit in H1. subst w1. now exists w2.
Qed.

Lemma boundary_offset (b : nat) :
  In b (detect_table_boundaries t) -> nth_error t b = Some newline.
Proof.
  unfold detect_table_boundaries, finditer. intros Hin.
  apply in_map_iff in Hin. destruct Hin as (m & <- & Hin).
  apply finditer_from_offset in Hin.
  destruct Hin as (i & len & Hs & _ & Hm & _). simpl in Hs. subst i.
  apply match_here_sound in Hm. destruct Hm as (w & s' & E & M & _).
  apply boundary_pattern_words in M. destruct M as (rest & ->).
  now apply skipn_head_nth in E.
Qed.

End Offsets.

(* ================================================================== *)
(** * Further properties: pages, selection and the top ten *)

Section ExactResults.

Lemma dict_set_fresh (V : Type) (d : dict V) (key : nat) (v : V) :
  (forall e, In e d -> fst e < key) -> dict_set d key v = d ++ [(key, v)].
Proof.
  induction d as [|[k w] d IH]; intros H; simpl; trivial.
  assert (Hk : k < key) by (apply (H (k, w)); now left).
  destruct (Nat.eqb_spec k key); [ lia | ].
  f_equal. apply IH. intros e He. apply H. now right.
Qed.

Lemma page_values_ok (t : text) : extract_all_numbers t = Ok (page_values t).
Proof.
  unfold page_values. destruct (extract_all_numbers_ok t) as (vals & -> & _).
  reflexivity.
Qed.

Lemma expected_results_keys (pages : list text) (k : nat) :
  forall e, In e (expected_results k pages) ->
            k <= fst e < k + List.length pages.
Proof.
  revert k. induction pages as [|t pages IH]; intros k e He; simpl in He.
  - destruct He.
  - assert (Hrec : In e (expected_results (S k) pages) ->
                   k <= fst e < k + List.length (t :: pages)).
    { intros H. apply IH in H. simpl. lia. }
    destruct (extract_numbers_with_context t); [ now apply Hrec | ].
    destruct He as [<-|He]; [ simpl; lia | now apply Hrec ].
Qed.

Lemma expected_results_sorted (pages : list text) (k : nat) :
  StronglySorted lt (map fst (expected_results k pages)).
Proof.
  revert k. induction pages as [|t pages IH]; intros k; simpl.
  - constructor.
  - destruct (extract_numbers_with_context t); [ apply IH | ].
    simpl. constructor; [ apply IH | ].
    rewrite Forall_map. apply Forall_forall. intros e He.
    apply expected_results_keys in He. lia.
Qed.

(** The loop over the pages adds the values and the records of each page
    at the end of what it has: no assignment replaces an entry. *)
Lemma process_pages_exact (pages : list text) :
  forall (k : nat) (base : list (float * nat)) (nlp : nlp_dict),
    (forall e, In e nlp -> fst e < k) ->
    process_pages pages k (base, nlp)
    = Ok (base ++ expected_numbers k pages, nlp ++ expected_results k pages).
Proof.
  induction pages as [|t pages IH]; intros k base nlp Hk; simpl.
  - now rewrite !app_nil_r.
  - rewrite (page_values_ok t).
    destruct (extract_numbers_with_context t) as [|r rs] eqn:E.
    + rewrite IH.
      * unfold on_page. now rewrite <- app_assoc.
      * intros e He. apply Hk in He. lia.
    + rewrite (dict_set_fresh _ _ Hk), IH.
      * unfold on_page. now rewrite <- !app_assoc.
      * intros e He. apply in_app_iff in He.
        destruct He as [He|[<-|[]]]; [ apply Hk in He; lia | simpl; lia ].
Qed.

Lemma process_pdf_exact (pages : list text) :
  process_pdf pages = Ok (expected_numbers 1 pages, expected_results 1 pages).
Proof.
  unfold process_pdf. rewrite process_pages_exact; [ reflexivity | ].
  intros e [].
Qed.

Lemma page_values_nil (t : text) :
  page_values t = [] <-> extract_numbers_with_context t = [].
Proof.
  rewrite same_pages, page_values_ok. split; [ now intros -> | ].
  intros H. now injection H.
Qed.

Lemma expected_nil (pages : list text) (k : nat) :
  expected_numbers k pages = [] <-> expected_results k pages = [].
Proof.
  revert k. induction pages as [|t pages IH]; intros k; simpl; [ tauto | ].
  pose proof (page_values_nil t) as Ht.
  destruct (extract_numbers_with_context t) as [|r rs].
  - rewrite (proj2 Ht eq_refl). simpl. apply IH.
  - split; [ | discriminate ].
    intros H. apply app_eq_nil in H. destruct H as [H _].
    unfold on_page in H. apply map_eq_nil in H.
    apply Ht in H. discriminate.
Qed.

Lemma expected_results_records (pages : list text) (k : nat) :
  expected_results k pages <> [] ->
  all_nlp_numbers (expected_results k pages) <> [].
Proof.
  revert k. induction pages as [|t pages IH]; intros k; simpl; [ congruence | ].
  destruct (extract_numbers_with_context t) as [|r rs]; [ apply IH | ].
  intros _. unfold all_nlp_numbers. simpl. discriminate.
Qed.

End ExactResults.

Section HeadOfTopTen.

Variable A : Type.
Variable key : A -> float.

(** The items of the key of the first largest item start with it. *)
Lemma first_max_heads_its_key (l : list A) (best : A) :
  keys_ok key l -> first_max key l best ->
  exists later, filter (has_key key (key best)) l = best :: later.
Proof.
  intros Hok (pre & post & -> & Hpre & _).
  unfold keys_ok in Hok. rewrite Forall_forall in Hok.
  assert (Nb : not_nan (key best)).
  { apply Hok. rewrite in_app_iff. right. now left. }
  rewrite filter_app. simpl. unfold has_key at 2.
  rewrite (eqb_refl_not_nan Nb).
  assert (E : filter (has_key key (key best)) pre = []).
  { clear Hok. induction pre as [|x pre IH]; simpl; trivial.
    unfold has_key at 1.
    rewrite (smaller_other_key (Hpre x (or_introl eq_refl))
                               (eqb_refl_not_nan Nb)).
    apply IH. intros y Hy. apply Hpre. now right. }
  rewrite E. simpl. eauto.
Qed.

(** The first row of the top ten is the first largest item. *)
Lemma top10_head (l : list A) (best : A) :
  keys_ok key l -> first_max key l best ->
  hd_error (top10 key l) = Some best.
Proof.
  intros Hok Hmax.
  pose proof (sorted_reverse_perm key l) as Hperm.
  pose proof (sorted_reverse_descending Hok) as Hdesc.
  pose proof (first_max_in Hmax) as Hin.
  unfold top10.
  destruct (sorted_reverse key l) as [|y s] eqn:Es.
  - apply Permutation_nil in Hperm. subst l. destruct Hin.
  - simpl. f_equal.
    assert (Hall : forall x, In x l -> not_nan (key x)).
    { unfold keys_ok in Hok. now rewrite Forall_forall in Hok. }
    assert (Hy : In y l).
    { apply (Permutation_in _ Hperm). now left. }
    assert (Ny := Hall y Hy). assert (Nb := Hall best Hin).
    (* the head is not smaller than [best], and [best] not than the head *)
    assert (H1 : (key y <? key best)%float = false).
    { apply (Permutation_in _ (Permutation_sym Hperm)) in Hin.
      destruct Hin as [<-|Hin]; [ apply ltb_irrefl | ].
      unfold descending in Hdesc. inversion Hdesc as [|? ? _ Hys]; subst.
      rewrite Forall_forall in Hys. now apply Hys. }
    assert (H2 : (key best <? key y)%float = false).
    { pose proof (first_max_ge Hok Hmax y Hy) as Hle.
      rewrite leb_ltb in Hle by assumption. now apply negb_true_iff in Hle. }
    assert (Heq : (key y =? key best)%float = true).
    { rewrite eqb_ltb by assumption. now rewrite H1, H2. }
    destruct (first_max_heads_its_key Hok Hmax) as (later & Hf).
    rewrite <- (sorted_reverse_stable key (key best) l), Es in Hf.
    simpl in Hf. unfold has_key at 1 in Hf. rewrite Heq in Hf.
    now injection Hf.
Qed.

Lemma top10_all (l : list A) :
  List.length l <= 10 -> Permutation (top10 key l) l.
Proof.
  intros H. unfold top10. rewrite firstn_all2; [ apply sorted_reverse_perm | ].
  now rewrite (Permutation_length (sorted_reverse_perm key l)).
Qed.

Lemma max_from_in (items : list A) (best : A) :
  In (max_from key best items) (best :: items).
Proof.
  revert best. induction items as [|x items IH]; intros best; simpl.
  - now left.
  - destruct (IH (if (key best <? key x)%float then x else best)) as [H|H].
    + destruct (key best <? key x)%float; [ right; now left | now left ].
    + right. now right.
Qed.

End HeadOfTopTen.

Section NoRecords.

Lemma maxima_nil (d : nlp_dict) : all_nlp_numbers d = [] -> maxima d = [].
Proof.
  induction d as [|[pg [|x l]] d IH]; intros H; simpl; trivial.
  - apply IH. exact H.
  - unfold all_nlp_numbers in H. simpl in H. discriminate.
Qed.

Lemma no_records_no_result (d : nlp_dict) :
  all_nlp_numbers d = [] -> find_largest_nlp_number d = Ok None.
Proof.
  intros H. unfold find_largest_nlp_number. destruct d as [|e d]; trivial.
  now rewrite page_maxima_ok, (maxima_nil _ H).
Qed.

Lemma expected_numbers_nil (pages : list text) (k : nat) :
  expected_numbers k pages = [] ->
  Forall (fun t => extract_all_numbers t = Ok []) pages.
Proof.
  revert k. induction pages as [|t pages IH]; intros k H; simpl in H.
  - constructor.
  - apply app_eq_nil in H. destruct H as [H1 H2].
    constructor; [ | now apply IH in H2 ].
    unfold on_page in H1. apply map_eq_nil in H1.
    now rewrite page_values_ok, H1.
Qed.

End NoRecords.

(* ================================================================== *)
(** * Further properties of the code *)

(** X1. Every literal that either extractor reads is a word of the first
    alternative of the number pattern: a sign or none, one to three digits,
    and then nothing, a comma or a point. The second alternative never
    matches, and a run of more than three digits is never one number. *)
Theorem X1_literals_have_three_leading_digits (t : text) :
  Forall (fun w => matches first_alternative w /\ literal_shape w)
         (findall number_pattern t)
  /\ Forall (fun m => exists w,
                 group 1 (m_groups m) = Some w
                 /\ matches first_alternative w /\ literal_shape w)
            (context_matches t).
Proof.
  split; apply Forall_forall.
  - intros w Hin. unfold findall, finditer in Hin.
    apply in_map_iff in Hin. destruct Hin as (m & <- & Hin).
    apply finditer_from_match in Hin. destruct Hin as (s' & len & H & ->).
    apply match_here_number_words in H.
    split; [ exact H | now apply first_alternative_words ].
  - intros m Hin. unfold context_matches, finditer in Hin.
    apply finditer_from_match in Hin. destruct Hin as (s' & len & H & _).
    apply context_match_first in H. destruct H as (w & Hg & Hw).
    exists w. repeat split; trivial. now apply first_alternative_words.
Qed.

(** X2. A text has contextual records exactly when the base extraction
    finds a literal in it. *)
Theorem X2_records_where_literals_are (t : text) :
  extract_numbers_with_context t = [] <-> extract_all_numbers t = Ok [].
Proof. apply same_pages. Qed.

(** X3. For every list of page texts the head of [main] gets both
    selections without an exception, and they agree: either no page has a
    literal and both are [None], or both are found, each the first largest
    of its list. *)
Theorem X3_main_selections_agree (pages : list text) :
  exists largest_base largest_nlp,
    main_largest pages = Ok (largest_base, largest_nlp)
    /\ ((largest_base = None /\ largest_nlp = None
         /\ Forall (fun t => extract_all_numbers t = Ok []) pages)
        \/ (exists b n,
               largest_base = Some b /\ largest_nlp = Some n
               /\ first_max fst (expected_numbers 1 pages) b
               /\ first_max scaled_of
                    (all_nlp_numbers (expected_results 1 pages)) n)).
Proof.
  unfold main_largest. rewrite process_pdf_exact.
  destruct (process_pdf_values pages (process_pdf_exact pages)) as [Hb Hn].
  simpl in Hb, Hn.
  destruct (expected_numbers 1 pages) as [|x nums] eqn:E.
  - pose proof (proj1 (expected_nil pages 1) E) as E'. rewrite E'.
    exists None, None. split; [ reflexivity | left ].
    repeat split. now apply expected_numbers_nil with 1.
  - assert (Hne : expected_results 1 pages <> []).
    { intros F. apply expected_nil in F. congruence. }
    apply expected_results_records in Hne.
    destruct (@find_largest_number_spec (x :: nums)) as (b & Fb & Mb);
      [ discriminate | exact Hb | ].
    destruct (find_largest_nlp_number_spec _ Hne Hn) as (n & Fn & Mn).
    rewrite Fb, Fn. exists (Some b), (Some n).
    split; [ reflexivity | right ]. exists b, n. repeat split; trivial.
Qed.

(** X4. A mapping whose pages all have no record gives [None], not an
    exception. *)
Theorem X4_pages_without_records_give_none (d : nlp_dict) :
  all_nlp_numbers d = [] -> find_largest_nlp_number d = Ok None.
Proof. apply no_records_no_result. Qed.

Lemma X4_pages_without_records_give_none_witness :
  find_largest_nlp_number [(1, []); (4, [])] = Ok None.
Proof.
  apply X4_pages_without_records_give_none. reflexivity.
Defined.

(** X5. The first row of each top-10 table is what the selector of the
    same list returns. Values are numbers: none is a NaN. *)
Theorem X5_top10_starts_with_the_largest :
  (forall nums : list (float * nat),
      nums <> [] -> keys_ok fst nums ->
      exists best,
        find_largest_number nums = Ok (Some best)
        /\ hd_error (top10_base nums) = Some best)
  /\ (forall d : nlp_dict,
        all_nlp_numbers d <> [] -> Forall record_ok (records_of d) ->
        exists best,
          find_largest_nlp_number d = Ok (Some best)
          /\ hd_error (top10_nlp d) = Some best).
Proof.
  split.
  - intros nums Hne Hok.
    destruct (find_largest_number_spec Hne Hok) as (best & Hf & Hm).
    exists best. split; [ exact Hf | ]. now apply top10_head.
  - intros d Hne Hok.
    destruct (find_largest_nlp_number_spec _ Hne Hok) as (best & Hf & Hm).
    exists best. split; [ exact Hf | ].
    apply (top10_head (key := scaled_of)); [ | exact Hm ].
    unfold keys_ok, scaled_of. apply Forall_forall. intros x Hx.
    rewrite Forall_forall in Hok. apply Hok.
    rewrite <- records_of_flat. now apply in_map.
Qed.

Lemma X5_top10_starts_with_the_largest_witness :
  exists best,
    find_largest_number [(3%float, 1); (7%float, 2); (7%float, 3)]
    = Ok (Some best)
    /\ hd_error (top10_base [(3%float, 1); (7%float, 2); (7%float, 3)])
       = Some best.
Proof.
  apply (proj1 X5_top10_starts_with_the_largest).
  - discriminate.
  - repeat constructor.
Defined.

(** X6. Record [k] is made of match [k]: its original value is group 1
    converted, its position the start of the match, its word group 2 or
    N/A, and its scaled value the original times the scale in force after
    round [k], passed through the step of the trailing word. That scale is
    1, 1e3, 1e6, 1e9 or 1e12. *)
Theorem X6_record_of_each_match (t : text) (k : nat) (m : re_match) :
  nth_error (context_matches t) k = Some m ->
  exists r,
    nth_error (extract_numbers_with_context t) k = Some r
    /\ record_at t k m r
    /\ In (current_scale (state_after t (S k))) scales.
Proof.
  intros Hm. destruct (record_by_round t k Hm) as (r & Hr & Hat).
  exists r. split; [ exact Hr | ]. split; [ exact Hat | apply state_scale ].
Qed.

Lemma X6_record_of_each_match_witness :
  exists r,
    nth_error (extract_numbers_with_context stacking_text) 1 = Some r
    /\ record_at stacking_text 1
         {| m_start := 20; m_text := of_string "2 million";
            m_groups := [(2, of_string "million"); (1, of_string "2")] |} r
    /\ In (current_scale (state_after stacking_text 2)) scales.
Proof.
  apply X6_record_of_each_match. vm_compute. reflexivity.
Defined.

(** X7. In every text the trailing word adds no factor: the scaled value
    of a record is its original value times one of the five scales, or
    that times 1. *)
Theorem X7_trailing_word_adds_no_factor (t : text) (r : number_record) :
  In r (extract_numbers_with_context t) ->
  exists s,
    In s scales
    /\ (scaled r = (original r * s)%float
        \/ scaled r = (original r * s * 1)%float).
Proof.
  intros Hin. destruct (record_has_round t r Hin) as (k & m & Hm & Hr).
  destruct Hr as (_ & _ & _ & Hs).
  exists (current_scale (state_after t (S k))).
  split; [ apply state_scale | ]. rewrite Hs. apply apply_scale_word_cases.
Qed.

Lemma X7_trailing_word_adds_no_factor_witness :
  exists s,
    In s scales
    /\ (2e9%float = (2 * s)%float \/ 2e9%float = (2 * s * 1)%float).
Proof.
  apply (X7_trailing_word_adds_no_factor stacking_text
           {| original := 2; scaled := 2e9;
              scale_word := of_string "million"; position := 20 |}).
  vm_compute. right. left. reflexivity.
Defined.

(** X8. A literal that no table boundary precedes is scaled by 1: so is
    every literal of a text without boundaries, whatever phrases the text
    holds. *)
Theorem X8_scale_is_one_before_the_first_boundary
        (t : text) (r : number_record) :
  In r (extract_numbers_with_context t) ->
  (forall b, In b (detect_table_boundaries t) -> position r <= b) ->
  scaled r = (original r * 1)%float \/ scaled r = (original r * 1 * 1)%float.
Proof. apply scale_one_before. Qed.

Lemma X8_scale_is_one_before_the_first_boundary_witness :
  150.5%float = (150.5 * 1)%float \/ 150.5%float = (150.5 * 1 * 1)%float.
Proof.
  apply (X8_scale_is_one_before_the_first_boundary revenue_text
           {| original := 150.5; scaled := 150.5;
              scale_word := of_string "N/A"; position := 31 |}).
  - vm_compute. right. left. reflexivity.
  - vm_compute. intros b [].
Defined.

(** X9. The records come in the order of the matches: their positions are
    the starts of the matches, they increase, and each is the offset of a
    digit or a sign in the lowered text, [text.lower()], which is the text
    that the pattern is matched on. *)
Theorem X9_positions_of_records (t : text) :
  map position (extract_numbers_with_context t)
  = map m_start (context_matches t)
  /\ StronglySorted lt (map position (extract_numbers_with_context t))
  /\ Forall (fun r => exists c,
                 nth_error (lower t) (position r) = Some c
                 /\ (is_digit c || is_sign c) = true)
            (extract_numbers_with_context t).
Proof.
  split; [ apply positions_are_starts | ].
  split.
  - rewrite positions_are_starts. apply finditer_from_increasing.
  - rewrite <- (Forall_map position
                  (fun p => exists c, nth_error (lower t) p = Some c
                                      /\ (is_digit c || is_sign c) = true)).
    rewrite positions_are_starts, Forall_map. apply Forall_forall.
    intros m Hin. now apply context_match_offset.
Qed.

(** X10. Every table boundary is the offset of a line feed in the text. *)
Theorem X10_boundaries_are_line_feeds (t : text) :
  Forall (fun b => nth_error t b = Some newline) (detect_table_boundaries t).
Proof. apply Forall_forall. intros b Hin. now apply boundary_offset. Qed.

(** X11. [process_pdf] returns the base values page after page, and the
    pages that have records in ascending order, each once and with a number
    from 1 to the number of pages: no page replaces another one. *)
Theorem X11_process_pdf_in_page_order (pages : list text) :
  process_pdf pages = Ok (expected_numbers 1 pages, expected_results 1 pages)
  /\ StronglySorted lt (map fst (expected_results 1 pages))
  /\ Forall (fun e => 1 <= fst e <= List.length pages)
            (expected_results 1 pages).
Proof.
  split; [ apply process_pdf_exact | ].
  split; [ apply expected_results_sorted | ].
  apply Forall_forall. intros e He. apply expected_results_keys in He. lia.
Qed.

(** X12. Of a list that is not empty the base selector returns one of its
    pairs, whatever the values are, a NaN too. *)
Theorem X12_largest_is_one_of_the_pairs (nums : list (float * nat)) :
  nums <> [] ->
  exists best, find_largest_number nums = Ok (Some best) /\ In best nums.
Proof.
  intros Hne. destruct nums as [|x nums]; [ congruence | ].
  exists (max_from fst x nums). split; [ reflexivity | apply max_from_in ].
Qed.

Lemma X12_largest_is_one_of_the_pairs_witness :
  exists best,
    find_largest_number [(nan, 1); (1%float, 2)] = Ok (Some best)
    /\ In best [(nan, 1); (1%float, 2)].
Proof.
  apply X12_largest_is_one_of_the_pairs. discriminate.
Defined.

(** X13. Of ten entries or fewer the top-10 selection drops none: it is
    the input in another order. *)
Theorem X13_top10_keeps_ten_or_fewer :
  (forall nums : list (float * nat),
      List.length nums <= 10 -> Permutation (top10_base nums) nums)
  /\ (forall d : nlp_dict,
        List.length (all_nlp_numbers d) <= 10 ->
        Permutation (top10_nlp d) (all_nlp_numbers d)).
Proof.
  split; intros; now apply top10_all.
Qed.

Lemma X13_top10_keeps_ten_or_fewer_witness :
  Permutation (top10_base [(3%float, 1); (7%float, 2)])
              [(3%float, 1); (7%float, 2)].
Proof.
  apply (proj1 X13_top10_keeps_ten_or_fewer). simpl. lia.
Defined.
